(** * Gravity Defied MRG track parser: embedding of [Parser/mrg_parser.py]

    The Python module is embedded function by function.  Python integers
    are unbounded, hence [Z]; a [bytes] value is a [list byte]; a [str]
    is the list of its Unicode code points.  The binary file object is a
    buffer with a cursor, exceptions are an error result, and the one
    [while True] loop of the module runs on fuel. *)

From Stdlib Require Import String Ascii.
From Stdlib Require Import Strings.Byte.
From Stdlib Require Import ZArith NArith List Lia Bool Sorted.
From Stdlib Require Import DecimalString DecimalZ DecimalPos.
Import ListNotations.
Open Scope Z_scope.

(** ** Python values *)

(** A [str]: Unicode code points. *)
Definition str := list N.

(** A string literal of the source, as a [str]. *)
Fixpoint lit (s : string) : str :=
  match s with
  | EmptyString => []
  | String a s' => N_of_ascii a :: lit s'
  end.

Definition byte_val (b : byte) : Z := Z.of_N (Byte.to_N b).

(** Exceptions the module can meet: [struct.error] from [struct.unpack]
    on a buffer of the wrong size, and [OSError] from [open]. *)
Inductive exn : Type :=
| struct_error (required : nat)
| OSError.

Inductive result (A : Type) : Type :=
| Ok (a : A)
| Err (e : exn).
Arguments Ok {A} a.
Arguments Err {A} e.

(** ** The binary file object *)

Record file : Type := mkfile { contents : list byte; pos : nat }.

(** Code that reads from the file [f] and may raise. *)
Definition M (A : Type) : Type := file -> result (A * file).

Definition ret {A} (a : A) : M A := fun f => Ok (a, f).

Definition raise {A} (e : exn) : M A := fun _ => Err e.

Definition bind {A B} (m : M A) (k : A -> M B) : M B :=
  fun f => match m f with
           | Ok (a, f') => k a f'
           | Err e => Err e
           end.

Declare Scope py_scope.
Delimit Scope py_scope with py.
Notation "x <- c ;; k" := (bind c (fun x => k))
  (at level 61, c at next level, right associativity) : py_scope.
Open Scope py_scope.

(** [f.read(n)]: at most [n] bytes from the cursor on; fewer (down to
    none) at the end of the buffer, never an exception. *)
Definition read (n : nat) : M (list byte) :=
  fun f =>
    let bs := firstn n (skipn (pos f) (contents f)) in
    Ok (bs, mkfile (contents f) (pos f + length bs)).

(** [f.seek(offset)]: absolute, also past the end. *)
Definition seek (offset : Z) (f : file) : file :=
  mkfile (contents f) (Z.to_nat offset).

(** ** [struct.unpack] for the formats the module uses *)

Module Struct.

(** Big-endian unsigned value of a byte string. *)
Definition be_uint (bs : list byte) : Z :=
  fold_left (fun acc b => acc * 256 + byte_val b) bs 0.

(** Two's complement reading of an unsigned [w]-bit value. *)
Definition signed (w : Z) (u : Z) : Z :=
  if u <? 2 ^ (w - 1) then u else u - 2 ^ w.

(** [struct.unpack(fmt, bs)[0]] for a format of [size] bytes. *)
Definition unpack (size : nat) (conv : Z -> Z) (bs : list byte) : M Z :=
  if Nat.eqb (length bs) size then ret (conv (be_uint bs))
  else raise (struct_error size).

(** ['>I'] *)
Definition unpack_I := unpack 4 (fun u => u).
(** ['>i'] *)
Definition unpack_i := unpack 4 (signed 32).
(** ['>H'] *)
Definition unpack_H := unpack 2 (fun u => u).
(** ['B'] *)
Definition unpack_B := unpack 1 (fun u => u).
(** ['b'] *)
Definition unpack_b := unpack 1 (signed 8).

End Struct.

(** ** [class Track] *)

Record Track : Type := mkTrack {
  name : str;
  level : Z;
  track_id : Z;
  start_x : Z;
  start_y : Z;
  finish_x : Z;
  finish_y : Z;
  points : list (Z * Z);
  source_file : str
}.

(** [(x << 16) >> 3], on Python integers. *)
Definition anchor_transform (v : Z) : Z := Z.shiftr (Z.shiftl v 16) 3.

(** [(x << 3) >> 16], on Python integers. *)
Definition point_transform (v : Z) : Z := Z.shiftr (Z.shiftl v 3) 16.

(** [Track.__post_init__] *)
Definition __post_init__ (t : Track) : Track :=
  mkTrack (name t) (level t) (track_id t)
    (anchor_transform (start_x t))
    (anchor_transform (start_y t))
    (anchor_transform (finish_x t))
    (anchor_transform (finish_y t))
    (map (fun p => (point_transform (fst p), point_transform (snd p))) (points t))
    (source_file t).

(** [Track(name, level, track_id, start_x, ..., points)]: the dataclass
    constructor, [source_file] defaulting to the empty string, followed
    by [__post_init__]. *)
Definition new_Track (name : str) (level track_id sx sy fx fy : Z)
    (points : list (Z * Z)) : Track :=
  __post_init__ (mkTrack name level track_id sx sy fx fy points []).

(** ** [MRGParser._parse_track] *)

(** Lines printed by the parser; each constructor carries the values its
    f-string interpolates. *)
Inductive log_line : Type :=
| Warning_invalid_marker (marker : Z) (name : str)
  (* f"Warning: Invalid track marker {marker:02x} for {name}" *)
| Error_parsing_track (name : str) (e : exn)
  (* f"Error parsing track {name}: {e}" *).

(** The [for i in range(1, points_count)] loop, [n] iterations left. *)
Fixpoint points_loop (n : nat) (current : Z * Z) (points : list (Z * Z))
    : M (list (Z * Z)) :=
  match n with
  | O => ret points
  | S n' =>
      xb <- read 1 ;;
      x_offset <- Struct.unpack_b xb ;;
      if x_offset =? -1 then
        let current := (0, 0) in
        xs <- read 4 ;;
        x <- Struct.unpack_i xs ;;
        ys <- read 4 ;;
        y <- Struct.unpack_i ys ;;
        let current := (fst current + x, snd current + y) in
        points_loop n' current (points ++ [current])
      else
        yb <- read 1 ;;
        y_offset <- Struct.unpack_b yb ;;
        let x := x_offset in
        let y := y_offset in
        let current := (fst current + x, snd current + y) in
        points_loop n' current (points ++ [current])
  end.

(** The body of the [try] block: the track, or [None] with the warning
    on a wrong marker; [struct.error] escapes to the handler. *)
Definition parse_track_body (name : str) (level track_id : Z)
    : M (option Track * list log_line) :=
  mb <- read 1 ;;
  marker <- Struct.unpack_B mb ;;
  if negb (marker =? 51) then
    ret (None, [Warning_invalid_marker marker name])
  else
    b1 <- read 4 ;; start_x <- Struct.unpack_i b1 ;;
    b2 <- read 4 ;; start_y <- Struct.unpack_i b2 ;;
    b3 <- read 4 ;; finish_x <- Struct.unpack_i b3 ;;
    b4 <- read 4 ;; finish_y <- Struct.unpack_i b4 ;;
    b5 <- read 2 ;; points_count <- Struct.unpack_H b5 ;;
    b6 <- read 4 ;; first_x <- Struct.unpack_i b6 ;;
    b7 <- read 4 ;; first_y <- Struct.unpack_i b7 ;;
    points <- points_loop (Z.to_nat (points_count - 1))
                (first_x, first_y) [(first_x, first_y)] ;;
    ret (Some (new_Track name level track_id start_x start_y
                 finish_x finish_y points), []).

(** The whole method: [except Exception] prints and returns [None].  The
    cursor the call leaves behind is dropped: the caller seeks to an
    absolute offset before every call. *)
Definition _parse_track (f : file) (name : str) (level track_id : Z)
    : option Track * list log_line :=
  match parse_track_body name level track_id f with
  | Ok (r, _) => r
  | Err e => (None, [Error_parsing_track name e])
  end.

(** ** [MRGParser.parse]: the directory *)

(** Code that may also be still running when its fuel is spent: [None]. *)
Definition F (A : Type) : Type := file -> option (result (A * file)).

Definition retF {A} (a : A) : F A := fun f => Some (Ok (a, f)).

Definition liftF {A} (m : M A) : F A := fun f => Some (m f).

Definition bindF {A B} (m : F A) (k : A -> F B) : F B :=
  fun f => match m f with
           | Some (Ok (a, f')) => k a f'
           | Some (Err e) => Some (Err e)
           | None => None
           end.

Notation "x <~ c ;; k" := (bindF c (fun x => k))
  (at level 61, c at next level, right associativity) : py_scope.

(** [byte == b'\x00'] *)
Definition is_nul (bs : list byte) : bool :=
  match bs with
  | [b] => Byte.eqb b x00
  | _ => false
  end.

(** The [while True] loop collecting the name: one iteration per unit of
    fuel. *)
Fixpoint read_name (fuel : nat) (name_bytes : list byte) : F (list byte) :=
  match fuel with
  | O => fun _ => None
  | S fuel' =>
      byte <~ liftF (read 1) ;;
      if is_nul byte then retF name_bytes
      else read_name fuel' (name_bytes ++ byte)
  end.

(** Rows 0x80 to 0xBF of the decoding table of Python's [cp1251] codec
    (the codec belongs to the Python library, not to the repository);
    0x98 is the one byte the code page leaves undefined. *)
Definition cp1251_high : list (option N) :=
  [ Some 1026; Some 1027; Some 8218; Some 1107; Some 8222; Some 8230;
    Some 8224; Some 8225; Some 8364; Some 8240; Some 1033; Some 8249;
    Some 1034; Some 1036; Some 1035; Some 1039; Some 1106; Some 8216;
    Some 8217; Some 8220; Some 8221; Some 8226; Some 8211; Some 8212;
    None; Some 8482; Some 1113; Some 8250; Some 1114; Some 1116;
    Some 1115; Some 1119; Some 160; Some 1038; Some 1118; Some 1032;
    Some 164; Some 1168; Some 166; Some 167; Some 1025; Some 169;
    Some 1028; Some 171; Some 172; Some 173; Some 174; Some 1031;
    Some 176; Some 177; Some 1030; Some 1110; Some 1169; Some 181;
    Some 182; Some 183; Some 1105; Some 8470; Some 1108; Some 187;
    Some 1112; Some 1029; Some 1109; Some 1111 ]%N.

(** The character of one byte: ASCII below 0x80, the table up to 0xBF,
    then the Cyrillic block U+0410..U+044F. *)
Definition cp1251_char (b : byte) : option N :=
  let n := Byte.to_N b in
  if (n <? 128)%N then Some n
  else if (n <? 192)%N then nth (N.to_nat (n - 128)) cp1251_high None
  else Some (n - 192 + 1040)%N.

(** [bs.decode('cp1251', errors='ignore')]: a byte without a character
    is skipped. *)
Fixpoint decode_cp1251_ignore (bs : list byte) : str :=
  match bs with
  | [] => []
  | b :: bs' =>
      match cp1251_char b with
      | Some c => c :: decode_cp1251_ignore bs'
      | None => decode_cp1251_ignore bs'
      end
  end.

(** [s.replace('_', ' ')] *)
Definition replace_underscore (s : str) : str :=
  map (fun c => if (c =? 95)%N then 32%N else c) s.

(** [name_bytes.decode('cp1251', errors='ignore').replace('_', ' ')] *)
Definition decode_name (name_bytes : list byte) : str :=
  replace_underscore (decode_cp1251_ignore name_bytes).

(** A directory entry: the tuple [(offset, name, track_id)]. *)
Definition entry : Type := Z * str * Z.

(** [for track_id in range(track_count)], [n] iterations left; the name
    loop of each entry starts with the whole [fuel]. *)
Fixpoint read_entries (fuel : nat) (n : nat) (track_id : Z)
    (level_tracks : list entry) : F (list entry) :=
  match n with
  | O => retF level_tracks
  | S n' =>
      ob <~ liftF (read 4) ;;
      offset <~ liftF (Struct.unpack_I ob) ;;
      name_bytes <~ read_name fuel [] ;;
      let name := decode_name name_bytes in
      read_entries fuel n' (track_id + 1)
        (level_tracks ++ [(offset, name, track_id)])
  end.

(** [for level in range(3)], [n] iterations left. *)
Fixpoint read_levels (fuel : nat) (n : nat) (levels_data : list (list entry))
    : F (list (list entry)) :=
  match n with
  | O => retF levels_data
  | S n' =>
      cb <~ liftF (read 4) ;;
      track_count <~ liftF (Struct.unpack_I cb) ;;
      level_tracks <~ read_entries fuel (Z.to_nat track_count) 0 [] ;;
      read_levels fuel n' (levels_data ++ [level_tracks])
  end.

(** ** [MRGParser.parse]: the tracks *)

(** [for offset, name, track_id in level_tracks]: [self.tracks] and the
    printed lines are accumulated. *)
Definition decode_level (f : file) (level : Z) (level_tracks : list entry)
    (acc : list Track * list log_line) : list Track * list log_line :=
  fold_left
    (fun acc e =>
       let '(offset, name, track_id) := e in
       let (track, out) := _parse_track (seek offset f) name level track_id in
       (match track with
        | Some t => fst acc ++ [t]
        | None => fst acc
        end, snd acc ++ out))
    level_tracks acc.

(** [for level, level_tracks in enumerate(levels_data)] *)
Fixpoint decode_levels (f : file) (level : Z) (levels_data : list (list entry))
    (acc : list Track * list log_line) : list Track * list log_line :=
  match levels_data with
  | [] => acc
  | level_tracks :: rest =>
      decode_levels f (level + 1) rest (decode_level f level level_tracks acc)
  end.

(** The body of [with open(...) as f] on the opened file: [self.tracks]
    and what was printed, an exception of the directory loop, or [None]
    while a name is still being read. *)
Definition parse_file (fuel : nat) (f : file)
    : option (result (list Track * list log_line)) :=
  match read_levels fuel 3 [] f with
  | None => None
  | Some (Err e) => Some (Err e)
  | Some (Ok (levels_data, f')) =>
      Some (Ok (decode_levels f' 0 levels_data ([], [])))
  end.

Section Files.

(** The file system: the bytes of the file at a path, if it opens. *)
Variable fs : str -> option (list byte).

(** [Path(file_path).stem], of Python's [pathlib]. *)
Variable stem : str -> str.

(** [MRGParser(file_path).parse()] *)
Definition parse (fuel : nat) (file_path : str)
    : option (result (list Track * list log_line)) :=
  match fs file_path with
  | None => Some (Err OSError)
  | Some buf => parse_file fuel (mkfile buf 0)
  end.

(** [track.source_file = file_name] *)
Definition set_source_file (file_name : str) (t : Track) : Track :=
  mkTrack (name t) (level t) (track_id t) (start_x t) (start_y t)
    (finish_x t) (finish_y t) (points t) file_name.

(** [parse_multiple_files]: the loop over [file_paths] and the pair it
    returns.  The progress lines and the CSV and JSON writers that
    follow the loop are left out. *)
Fixpoint files_loop (fuel : nat) (file_paths : list str)
    (all_tracks : list Track) (failed_files : list str)
    : option (list Track * list str) :=
  match file_paths with
  | [] => Some (all_tracks, failed_files)
  | file_path :: rest =>
      match parse fuel file_path with
      | None => None
      | Some (Ok (tracks, _)) =>
          let file_name := stem file_path in
          let tracks := map (set_source_file file_name) tracks in
          files_loop fuel rest (all_tracks ++ tracks) failed_files
      | Some (Err _) =>
          files_loop fuel rest all_tracks (failed_files ++ [file_path])
      end
  end.

Definition parse_multiple_files (fuel : nat) (file_paths : list str)
    : option (list Track * list str) :=
  files_loop fuel file_paths [] [].

End Files.

(** * Vocabulary of the statements *)

(** ** Buffers *)

(** What is left to read in [f]. *)
Definition unread (f : file) : list byte := skipn (pos f) (contents f).

(** [f] with its cursor [n] bytes further. *)
Definition advance (n : nat) (f : file) : file :=
  mkfile (contents f) (pos f + n).

(** The byte of value [z mod 256]. *)
Definition byte_of_Z (z : Z) : byte :=
  match Byte.of_N (Z.to_N (z mod 256)) with
  | Some b => b
  | None => x00
  end.

(** The wire encodings the decoder undoes: one byte, and two or four
    bytes big-endian (two's complement for a negative value). *)
Definition pack_b (z : Z) : list byte := [byte_of_Z z].

Definition pack_H (z : Z) : list byte := [byte_of_Z (z / 256); byte_of_Z z].

Definition pack_i (z : Z) : list byte :=
  [byte_of_Z (z / 16777216); byte_of_Z (z / 65536); byte_of_Z (z / 256);
   byte_of_Z z].

Definition int8 (z : Z) : Prop := -128 <= z <= 127.
Definition int32 (z : Z) : Prop := - 2 ^ 31 <= z < 2 ^ 31.

(** ** The per-point rule as the specification words it *)

(** One point of the stream: a relative move, or the escape followed by
    absolute coordinates. *)
Inductive step : Type :=
| Relative (dx dy : Z)
| AbsoluteReset (x y : Z).

Definition step_ok (s : step) : Prop :=
  match s with
  | Relative dx dy => int8 dx /\ dx <> -1 /\ int8 dy
  | AbsoluteReset x y => int32 x /\ int32 y
  end.

Definition encode_step (s : step) : list byte :=
  match s with
  | Relative dx dy => pack_b dx ++ pack_b dy
  | AbsoluteReset x y => pack_b (-1) ++ pack_i x ++ pack_i y
  end.

Definition encode_steps (steps : list step) : list byte :=
  flat_map encode_step steps.

(** The cursor after a step: advanced by the delta, the escape resetting
    it to the origin first. *)
Definition spec_apply (cursor : Z * Z) (s : step) : Z * Z :=
  match s with
  | Relative dx dy => (fst cursor + dx, snd cursor + dy)
  | AbsoluteReset x y => (0 + x, 0 + y)
  end.

(** The cursor values the steps go through, in order. *)
Fixpoint spec_points (cursor : Z * Z) (steps : list step) : list (Z * Z) :=
  match steps with
  | [] => []
  | s :: rest =>
      let cursor' := spec_apply cursor s in
      cursor' :: spec_points cursor' rest
  end.

(** The wire layout of a track: marker, anchors, declared point count,
    first absolute point, then the steps. *)
Definition encode_track (sx sy fx fy point_count x0 y0 : Z)
    (steps : list step) : list byte :=
  [x33] ++ pack_i sx ++ pack_i sy ++ pack_i fx ++ pack_i fy ++
  pack_H point_count ++ pack_i x0 ++ pack_i y0 ++ encode_steps steps.

(** The [point_count] field of the track header [f] is positioned at:
    the big-endian 16-bit value after the marker and the four anchors. *)
Definition header_point_count (f : file) : Z :=
  Struct.be_uint (firstn 2 (skipn 17 (unread f))).

(** The first absolute point of that header. *)
Definition header_first_point (f : file) : Z * Z :=
  (Struct.signed 32 (Struct.be_uint (firstn 4 (skipn 19 (unread f)))),
   Struct.signed 32 (Struct.be_uint (firstn 4 (skipn 23 (unread f))))).

(** ** The coordinate transformation as the specification words it *)

(** On signed 32-bit values: the left shift wraps around at 32 bits, the
    right shift is arithmetic. *)
Definition wrap32 (z : Z) : Z := Struct.signed 32 (z mod 2 ^ 32).

Definition anchor_transform_i32 (v : Z) : Z :=
  Z.shiftr (wrap32 (Z.shiftl v 16)) 3.

(** ** The name decoding as the specification words it *)

(** A byte without a character becomes U+FFFD. *)
Definition decode_cp1251_replace (bs : list byte) : str :=
  map (fun b => match cp1251_char b with
                | Some c => c
                | None => 65533%N
                end) bs.

Definition decode_name_replace (name_bytes : list byte) : str :=
  replace_underscore (decode_cp1251_replace name_bytes).

(** ** The directory walk *)

(** [range(start, start + n)] *)
Fixpoint ids (start : Z) (n : nat) : list Z :=
  match n with
  | O => []
  | S n' => start :: ids (start + 1) n'
  end.

(** The entries of [levels_data] in the order the second loop of
    [parse] visits them, each with its level, counted from [level]. *)
Fixpoint walk (level : Z) (levels_data : list (list entry))
    : list (Z * entry) :=
  match levels_data with
  | [] => []
  | level_tracks :: rest =>
      map (pair level) level_tracks ++ walk (level + 1) rest
  end.

(** One visit: seek to the entry's offset, decode the track there. *)
Definition decode_entry (f : file) (le : Z * entry)
    : option Track * list log_line :=
  let '(level, (offset, name, track_id)) := le in
  _parse_track (seek offset f) name level track_id.

Definition entry_tracks (f : file) (le : Z * entry) : list Track :=
  match fst (decode_entry f le) with
  | Some t => [t]
  | None => []
  end.

Definition entry_output (f : file) (le : Z * entry) : list log_line :=
  snd (decode_entry f le).

(** Position in the directory: level, then index within the level. *)
Definition entry_key (le : Z * entry) : Z * Z := (fst le, snd (snd le)).

Definition track_key (t : Track) : Z * Z := (level t, track_id t).

Definition key_lt (a b : Z * Z) : Prop :=
  fst a < fst b \/ (fst a = fst b /\ snd a < snd b).

(** ** The batch *)

Section Batch.

Variable fs : str -> option (list byte).
Variable stem : str -> str.

(** What a source contributes to [all_tracks]. *)
Definition source_tracks (fuel : nat) (file_path : str) : list Track :=
  match parse fs fuel file_path with
  | Some (Ok (tracks, _)) => map (set_source_file (stem file_path)) tracks
  | _ => []
  end.

(** Whether parsing the source raises. *)
Definition source_fails (fuel : nat) (file_path : str) : bool :=
  match parse fs fuel file_path with
  | Some (Err _) => true
  | _ => false
  end.

End Batch.

(** ** Sample inputs *)

(** The deltas (1,1), (2,-2) and the escaped point (5,7). *)
Definition sample_steps : list step :=
  [Relative 1 1; Relative 2 (-2); AbsoluteReset 5 7].

(** A track at the start of a buffer: anchors (1,-1) and (65536,8),
    four points from (100,100) on. *)
Definition sample_track : list byte :=
  encode_track 1 (-1) 65536 8 4 100 100 sample_steps.

(** A track whose header declares no point at all. *)
Definition zero_count_track : list byte :=
  encode_track 1 (-1) 65536 8 0 100 100 [].

(** A directory of one entry, cut in the middle of its name: count 1,
    offset 0, then the letter A and the end of the buffer. *)
Definition truncated_name_buffer : list byte :=
  [x00; x00; x00; x01; x00; x00; x00; x00; x41].

(** A whole source.  Level 0 lists the track A at offset 30 and an
    entry B at offset 0, where the byte is 0x00 and not the marker;
    level 1 is empty; level 2 lists B at offset 0 again. *)
Definition sample_source : list byte :=
  pack_i 2 ++ pack_i 30 ++ [x41; x00] ++ pack_i 0 ++ [x42; x00] ++
  pack_i 0 ++
  pack_i 1 ++ pack_i 0 ++ [x42; x00] ++
  sample_track.

(** Three paths: two copies of the sample source around a file that ends
    inside its first count. *)
Definition sample_fs (file_path : str) : option (list byte) :=
  if list_eq_dec N.eq_dec file_path (lit "a.mrg") then Some sample_source
  else if list_eq_dec N.eq_dec file_path (lit "b.mrg") then Some [x00; x00]
  else if list_eq_dec N.eq_dec file_path (lit "c.mrg") then Some sample_source
  else None.

(** [Path(p).stem] on paths such as the sample ones, a bare file name
    with the suffix [.mrg]: the name without its last four characters. *)
Definition sample_stem (file_path : str) : str :=
  firstn (length file_path - 4) file_path.

(** The same with a source cut inside a name in the middle. *)
Definition stalling_fs (file_path : str) : option (list byte) :=
  if list_eq_dec N.eq_dec file_path (lit "b.mrg")
  then Some truncated_name_buffer
  else sample_fs file_path.

(** ** [save_tracks_csv] and [save_tracks_json] *)

(** [str(z)] for an integer: decimal digits, [-] before a negative one. *)
Definition str_of_int (z : Z) : str :=
  lit (NilZero.string_of_int (Z.to_int z)).

(** [sep.join(parts)] *)
Fixpoint join (sep : str) (parts : list str) : str :=
  match parts with
  | [] => []
  | [p] => p
  | p :: rest => p ++ sep ++ join sep rest
  end.

(** A cell handed to [csv.writer.writerow]: a [str] or an [int]. *)
Inductive cell : Type :=
| Cstr (s : str)
| Cint (z : Z).

(** The header row. *)
Definition csv_header : list cell :=
  map (fun s => Cstr (lit s))
    ["source_file"; "name"; "level"; "track_id"; "start_x"; "start_y";
     "finish_x"; "finish_y"; "point_count"; "points_x"; "points_y"]%string.

(** The row of one track. *)
Definition csv_row (track : Track) : list cell :=
  let points_x := map (fun p => str_of_int (fst p)) (points track) in
  let points_y := map (fun p => str_of_int (snd p)) (points track) in
  [ Cstr (source_file track);
    Cstr (name track);
    Cint (level track);
    Cint (track_id track);
    Cint (start_x track);
    Cint (start_y track);
    Cint (finish_x track);
    Cint (finish_y track);
    Cint (Z.of_nat (length (points track)));
    Cstr (join (lit "|") points_x);
    Cstr (join (lit "|") points_y) ].

(** [save_tracks_csv]: the rows handed to the writer, in order.  The
    quoting and the file the [csv] module produces from them are left to
    that module. *)
Definition save_tracks_csv (tracks : list Track) : list (list cell) :=
  csv_header :: map csv_row tracks.

(** A value of a track dictionary. *)
Inductive jvalue : Type :=
| Jstr (s : str)
| Jint (z : Z)
| Jpoints (ps : list (Z * Z)).

(** [save_tracks_json]: [track_data], the dictionaries handed to
    [json.dump], each as its items in insertion order. *)
Definition save_tracks_json (tracks : list Track)
    : list (list (str * jvalue)) :=
  map (fun track =>
         [ (lit "source_file", Jstr (source_file track));
           (lit "name", Jstr (name track));
           (lit "level", Jint (level track));
           (lit "track_id", Jint (track_id track));
           (lit "start_x", Jint (start_x track));
           (lit "start_y", Jint (start_y track));
           (lit "finish_x", Jint (finish_x track));
           (lit "finish_y", Jint (finish_y track));
           (lit "points", Jpoints (points track)) ])
      tracks.

(** A file written by the batch. *)
Inductive written : Type :=
| Csv_file (path : str) (rows : list (list cell))
| Json_file (path : str) (track_data : list (list (str * jvalue))).

(** The end of [parse_multiple_files]: [if all_tracks:] the combined data
    are saved under [output_prefix]. *)
Definition save_combined (output_prefix : str) (all_tracks : list Track)
    : list written :=
  match all_tracks with
  | [] => []
  | _ :: _ =>
      [ Csv_file (output_prefix ++ lit ".csv") (save_tracks_csv all_tracks);
        Json_file (output_prefix ++ lit ".json") (save_tracks_json all_tracks) ]
  end.

(** The signed 32-bit field [k] bytes into the track header [f] is
    positioned at. *)
Definition header_i32 (k : nat) (f : file) : Z :=
  Struct.signed 32 (Struct.be_uint (firstn 4 (skipn k (unread f)))).

(** ** A well-formed directory *)

(** A directory entry on the wire: offset, name bytes, terminator. *)
Definition encode_entry (e : Z * list byte) : list byte :=
  pack_i (fst e) ++ snd e ++ [x00].

(** A level on the wire: the count, then the entries. *)
Definition encode_level (es : list (Z * list byte)) : list byte :=
  pack_i (Z.of_nat (length es)) ++ flat_map encode_entry es.

Definition entry_ok (fuel : nat) (e : Z * list byte) : Prop :=
  0 <= fst e < 2 ^ 32 /\ ~ In x00 (snd e) /\ (length (snd e) < fuel)%nat.

(** The entries [read_entries] makes of wire entries, numbered from
    [track_id]. *)
Fixpoint decoded_entries (track_id : Z) (es : list (Z * list byte))
    : list entry :=
  match es with
  | [] => []
  | e :: rest =>
      (fst e, decode_name (snd e), track_id) ::
      decoded_entries (track_id + 1) rest
  end.

(** ** A source with several tracks *)

(** A track of one point, raw (81920, 0). *)
Definition first_track : list byte :=
  encode_track 1 1 2 2 1 81920 0 [].

(** A track of two points, from raw (0, 81920) on. *)
Definition second_track : list byte :=
  encode_track 3 3 4 4 2 0 81920 [Relative 5 5].

(** Level 0 lists A on the second track, at offset 57, then B on the
    first, at offset 30; level 1 lists C on the first track again; level
    2 is empty.  The directory takes 30 bytes. *)
Definition ordered_source : list byte :=
  pack_i 2 ++ pack_i 57 ++ [x41; x00] ++ pack_i 30 ++ [x42; x00] ++
  pack_i 1 ++ pack_i 30 ++ [x43; x00] ++
  pack_i 0 ++
  first_track ++ second_track.

(** The sample files and, under [x.mrg], the source above. *)
Definition ordered_fs (file_path : str) : option (list byte) :=
  if list_eq_dec N.eq_dec file_path (lit "x.mrg") then Some ordered_source
  else sample_fs file_path.

(** ** Sources on which [parse] returns *)

(** [buf] starts with the three levels [ls], well formed and with names
    shorter than the fuel. *)
Definition well_formed_source (fuel : nat) (buf : list byte)
    (ls : list (list (Z * list byte))) : Prop :=
  length ls = 3%nat /\
  Forall (fun es => Forall (entry_ok fuel) es /\
                    Z.of_nat (length es) < 2 ^ 32) ls /\
  exists rest, buf = flat_map encode_level ls ++ rest.

(** The file at [file_path] does not open, or is too short for its first
    count, or starts with a well-formed directory. *)
Definition source_returns (fs : str -> option (list byte)) (fuel : nat)
    (file_path : str) : Prop :=
  fs file_path = None \/
  exists buf, fs file_path = Some buf /\
              ((length buf < 4)%nat \/
               exists ls, well_formed_source fuel buf ls).

(** What identifies a track in the output of the batch. *)
Definition track_summary (t : Track) : str * str * Z * Z :=
  (source_file t, name t, level t, track_id t).

(** * Properties *)

(** ** The coordinate transformation *)

Lemma anchor_transform_mul (v : Z) : anchor_transform v = v * 2 ^ 13.
Proof.
  unfold anchor_transform.
  rewrite Z.shiftr_div_pow2, Z.shiftl_mul_pow2 by lia.
  change (2 ^ 16) with (2 ^ 13 * 2 ^ 3).
  rewrite Z.mul_assoc. apply Z.div_mul. discriminate.
Qed.

Lemma point_transform_div (v : Z) : point_transform v = v / 2 ^ 13.
Proof.
  unfold point_transform.
  rewrite Z.shiftr_div_pow2, Z.shiftl_mul_pow2 by lia.
  change (2 ^ 16) with (2 ^ 13 * 2 ^ 3).
  apply Z.div_mul_cancel_r; discriminate.
Qed.

Lemma wrap32_range (z : Z) : - 2 ^ 31 <= wrap32 z < 2 ^ 31.
Proof.
  unfold wrap32, Struct.signed.
  assert (H : 0 <= z mod 2 ^ 32 < 2 ^ 32) by (apply Z.mod_pos_bound; reflexivity).
  change (32 - 1) with 31.
  destruct (z mod 2 ^ 32 <? 2 ^ 31) eqn:E.
  - apply Z.ltb_lt in E. lia.
  - apply Z.ltb_ge in E. change (2 ^ 32) with (2 * 2 ^ 31) in *. lia.
Qed.

Lemma wrap32_small (z : Z) : - 2 ^ 31 <= z < 2 ^ 31 -> wrap32 z = z.
Proof.
  intros H. unfold wrap32, Struct.signed. change (32 - 1) with 31.
  destruct (Z_lt_le_dec z 0) as [Hn | Hp].
  - replace (z mod 2 ^ 32) with (z + 2 ^ 32).
    + destruct (z + 2 ^ 32 <? 2 ^ 31) eqn:E.
      * apply Z.ltb_lt in E. change (2 ^ 32) with (2 * 2 ^ 31) in E. lia.
      * lia.
    + apply Z.mod_unique with (q := -1).
      * left. change (2 ^ 32) with (2 * 2 ^ 31). lia.
      * lia.
  - rewrite Z.mod_small by (change (2 ^ 32) with (2 * 2 ^ 31); lia).
    destruct (z <? 2 ^ 31) eqn:E; [reflexivity | apply Z.ltb_ge in E; lia].
Qed.

Lemma anchor_transform_i32_agrees (v : Z) :
  anchor_transform v = anchor_transform_i32 v <-> - 2 ^ 15 <= v < 2 ^ 15.
Proof.
  rewrite anchor_transform_mul. unfold anchor_transform_i32.
  rewrite Z.shiftr_div_pow2, Z.shiftl_mul_pow2 by lia.
  split.
  - intros E.
    pose proof (wrap32_range (v * 2 ^ 16)) as R.
    assert (B : - 2 ^ 28 <= wrap32 (v * 2 ^ 16) / 2 ^ 3 < 2 ^ 28).
    { split.
      - apply Z.div_le_lower_bound; [reflexivity |].
        change (2 ^ 3 * - 2 ^ 28) with (- 2 ^ 31). lia.
      - apply Z.div_lt_upper_bound; [reflexivity |].
        change (2 ^ 3 * 2 ^ 28) with (2 ^ 31). lia. }
    rewrite <- E in B.
    change (2 ^ 28) with (2 ^ 15 * 2 ^ 13) in B. lia.
  - intros H. rewrite wrap32_small.
    + change (2 ^ 16) with (2 ^ 13 * 2 ^ 3).
      rewrite Z.mul_assoc. symmetry. apply Z.div_mul. discriminate.
    + change (2 ^ 31) with (2 ^ 15 * 2 ^ 16). lia.
Qed.

(** ** Reading and unpacking *)

Lemma byte_val_range (b : byte) : 0 <= byte_val b <= 255.
Proof.
  unfold byte_val. pose proof (Byte.to_N_bounded b). lia.
Qed.

Lemma byte_val_of_Z (z : Z) : byte_val (byte_of_Z z) = z mod 256.
Proof.
  unfold byte_val, byte_of_Z.
  assert (H : 0 <= z mod 256 < 256) by (apply Z.mod_pos_bound; reflexivity).
  destruct (Byte.of_N (Z.to_N (z mod 256))) as [b |] eqn:E.
  - apply Byte.to_of_N in E. rewrite E. lia.
  - apply Byte.of_N_None_iff in E. lia.
Qed.

Lemma read_unread (f : file) (bs rest : list byte) :
  unread f = bs ++ rest ->
  read (length bs) f = Ok (bs, advance (length bs) f).
Proof.
  unfold unread, read, advance. intros ->.
  rewrite firstn_app, firstn_all, Nat.sub_diag. simpl.
  rewrite app_nil_r. reflexivity.
Qed.

Lemma unread_advance (f : file) (bs rest : list byte) :
  unread f = bs ++ rest -> unread (advance (length bs) f) = rest.
Proof.
  unfold unread, advance. simpl. intros H.
  rewrite Nat.add_comm, <- skipn_skipn, H.
  rewrite skipn_app, skipn_all, Nat.sub_diag. reflexivity.
Qed.

Lemma advance_advance (n m : nat) (f : file) :
  advance m (advance n f) = advance (n + m) f.
Proof.
  unfold advance. simpl. f_equal. lia.
Qed.

Lemma advance_0 (f : file) : advance 0 f = f.
Proof.
  destruct f. unfold advance. simpl. f_equal. lia.
Qed.

Lemma unpack_b_pack (z : Z) (f : file) :
  int8 z -> Struct.unpack_b (pack_b z) f = Ok (z, f).
Proof.
  unfold int8. intros H.
  unfold Struct.unpack_b, Struct.unpack, pack_b, Struct.be_uint, ret. simpl.
  rewrite byte_val_of_Z. unfold Struct.signed. change (2 ^ (8 - 1)) with 128.
  change (2 ^ 8) with 256.
  destruct (z mod 256 <? 128) eqn:E;
    [apply Z.ltb_lt in E | apply Z.ltb_ge in E]; do 2 f_equal;
    Z.div_mod_to_equations; lia.
Qed.

Lemma unpack_H_pack (z : Z) (f : file) :
  0 <= z < 65536 -> Struct.unpack_H (pack_H z) f = Ok (z, f).
Proof.
  intros H.
  unfold Struct.unpack_H, Struct.unpack, pack_H, Struct.be_uint, ret. simpl.
  rewrite !byte_val_of_Z. do 2 f_equal. Z.div_mod_to_equations. lia.
Qed.

Lemma be_uint_pack_i (z : Z) : Struct.be_uint (pack_i z) = z mod 2 ^ 32.
Proof.
  unfold pack_i, Struct.be_uint. simpl. rewrite !byte_val_of_Z.
  change (2 ^ 32) with 4294967296. Z.div_mod_to_equations. lia.
Qed.

Lemma unpack_i_pack (z : Z) (f : file) :
  int32 z -> Struct.unpack_i (pack_i z) f = Ok (z, f).
Proof.
  intros H. unfold Struct.unpack_i, Struct.unpack, ret.
  change (Nat.eqb (length (pack_i z)) 4) with true. cbv iota.
  rewrite be_uint_pack_i.
  change (Struct.signed 32 (z mod 2 ^ 32)) with (wrap32 z).
  rewrite wrap32_small by exact H. reflexivity.
Qed.

Lemma read_n (n : nat) (f : file) (bs rest : list byte) :
  unread f = bs ++ rest -> length bs = n ->
  read n f = Ok (bs, advance n f).
Proof.
  intros H <-. apply read_unread with (rest := rest). exact H.
Qed.

Lemma unread_advance_n (n : nat) (f : file) (bs rest : list byte) :
  unread f = bs ++ rest -> length bs = n -> unread (advance n f) = rest.
Proof.
  intros H <-. apply unread_advance. exact H.
Qed.

(** ** The point stream *)

Lemma points_loop_relative (n : nat) (cur : Z * Z) (pts : list (Z * Z))
    (f : file) (dx dy : Z) (rest : list byte) :
  int8 dx -> dx <> -1 -> int8 dy ->
  unread f = pack_b dx ++ pack_b dy ++ rest ->
  points_loop (S n) cur pts f =
  points_loop n (fst cur + dx, snd cur + dy)
    (pts ++ [(fst cur + dx, snd cur + dy)]) (advance 2 f).
Proof.
  intros Hx Hne Hy H.
  pose proof (unread_advance_n 1 f _ _ H eq_refl) as H1.
  cbn [points_loop]. unfold bind at 1.
  rewrite (read_n 1 f _ _ H eq_refl).
  unfold bind at 1. rewrite unpack_b_pack by exact Hx.
  destruct (dx =? -1) eqn:E; [apply Z.eqb_eq in E; contradiction |].
  unfold bind at 1.
  rewrite (read_n 1 _ _ _ H1 eq_refl).
  unfold bind at 1. rewrite unpack_b_pack by exact Hy.
  rewrite advance_advance. reflexivity.
Qed.

Lemma points_loop_escape (n : nat) (cur : Z * Z) (pts : list (Z * Z))
    (f : file) (x y : Z) (rest : list byte) :
  int32 x -> int32 y ->
  unread f = pack_b (-1) ++ pack_i x ++ pack_i y ++ rest ->
  points_loop (S n) cur pts f =
  points_loop n (0 + x, 0 + y) (pts ++ [(0 + x, 0 + y)]) (advance 9 f).
Proof.
  intros Hx Hy H.
  pose proof (unread_advance_n 1 f _ _ H eq_refl) as H1.
  pose proof (unread_advance_n 4 _ _ _ H1 eq_refl) as H2.
  cbn [points_loop]. unfold bind at 1.
  rewrite (read_n 1 f _ _ H eq_refl).
  unfold bind at 1. rewrite unpack_b_pack by (unfold int8; lia).
  change (-1 =? -1) with true. cbv iota.
  unfold bind at 1. rewrite (read_n 4 _ _ _ H1 eq_refl).
  unfold bind at 1. rewrite unpack_i_pack by exact Hx.
  unfold bind at 1. rewrite (read_n 4 _ _ _ H2 eq_refl).
  unfold bind at 1. rewrite unpack_i_pack by exact Hy.
  rewrite !advance_advance. reflexivity.
Qed.

Lemma length_encode_step (s : step) :
  length (encode_step s) = match s with Relative _ _ => 2 | AbsoluteReset _ _ => 9 end%nat.
Proof.
  destruct s; reflexivity.
Qed.

Lemma points_loop_encoded (steps : list step) :
  Forall step_ok steps ->
  forall (f : file) (cur : Z * Z) (pts : list (Z * Z)) (rest : list byte),
    unread f = encode_steps steps ++ rest ->
    points_loop (length steps) cur pts f =
    Ok (pts ++ spec_points cur steps,
        advance (length (encode_steps steps)) f).
Proof.
  induction 1 as [| s steps Hs _ IH]; intros f cur pts rest H.
  - simpl. unfold ret. rewrite app_nil_r, advance_0. reflexivity.
  - unfold encode_steps in H. cbn [flat_map] in H.
    fold (encode_steps steps) in H. rewrite <- app_assoc in H.
    cbn [length spec_points].
    change (encode_steps (s :: steps)) with (encode_step s ++ encode_steps steps).
    rewrite length_app, <- advance_advance, length_encode_step.
    destruct s as [dx dy | x y]; cbn [encode_step step_ok spec_apply] in *.
    + destruct Hs as (Hx & Hne & Hy). rewrite <- ?app_assoc in H.
      rewrite (points_loop_relative _ cur pts f dx dy _ Hx Hne Hy H).
      rewrite (IH _ _ _ rest), <- app_assoc; [reflexivity |].
      apply (unread_advance_n 2 f (pack_b dx ++ pack_b dy)).
      * rewrite <- app_assoc. exact H.
      * reflexivity.
    + destruct Hs as (Hx & Hy). rewrite <- ?app_assoc in H.
      rewrite (points_loop_escape _ cur pts f x y _ Hx Hy H).
      rewrite (IH _ _ _ rest), <- app_assoc; [reflexivity |].
      apply (unread_advance_n 9 f (pack_b (-1) ++ pack_i x ++ pack_i y)).
      * rewrite <- !app_assoc. exact H.
      * reflexivity.
Qed.

Lemma points_loop_length (n : nat) :
  forall (cur : Z * Z) (pts pts' : list (Z * Z)) (f f' : file),
    points_loop n cur pts f = Ok (pts', f') ->
    length pts' = (length pts + n)%nat.
Proof.
  induction n as [| n IH]; intros cur pts pts' f f' H.
  - simpl in H. unfold ret in H. inversion H. subst. lia.
  - cbn [points_loop] in H. unfold bind at 1 in H.
    destruct (read 1 f) as [[xb f1] | e]; [| discriminate].
    unfold bind at 1 in H.
    destruct (Struct.unpack_b xb f1) as [[x_offset f2] | e]; [| discriminate].
    destruct (x_offset =? -1).
    + unfold bind at 1 in H.
      destruct (read 4 f2) as [[xs f3] | e]; [| discriminate].
      unfold bind at 1 in H.
      destruct (Struct.unpack_i xs f3) as [[x f4] | e]; [| discriminate].
      unfold bind at 1 in H.
      destruct (read 4 f4) as [[ys f5] | e]; [| discriminate].
      unfold bind at 1 in H.
      destruct (Struct.unpack_i ys f5) as [[y f6] | e]; [| discriminate].
      apply IH in H. rewrite length_app in H. simpl in H. lia.
    + unfold bind at 1 in H.
      destruct (read 1 f2) as [[yb f3] | e]; [| discriminate].
      unfold bind at 1 in H.
      destruct (Struct.unpack_b yb f3) as [[y f4] | e]; [| discriminate].
      apply IH in H. rewrite length_app in H. simpl in H. lia.
Qed.

(** ** The track header *)

Lemma unread_advance_skipn (n : nat) (f : file) :
  unread (advance n f) = skipn n (unread f).
Proof.
  unfold unread, advance. simpl.
  rewrite skipn_skipn. f_equal. lia.
Qed.

(** A read of [n] bytes followed by a successful unpack of size [n]: the
    bytes were all there, and the cursor moved by [n]. *)
Lemma read_unpack_inv {A : Type} (n : nat) (conv : Z -> Z) (k : Z -> M A)
    (f : file) (r : A * file) :
  (bs <- read n ;; v <- Struct.unpack n conv bs ;; k v) f = Ok r ->
  length (firstn n (unread f)) = n /\
  k (conv (Struct.be_uint (firstn n (unread f)))) (advance n f) = Ok r.
Proof.
  unfold bind, read, Struct.unpack. fold (unread f).
  destruct (Nat.eqb (length (firstn n (unread f))) n) eqn:E.
  - apply Nat.eqb_eq in E. unfold ret, advance. rewrite E. auto.
  - unfold raise. discriminate.
Qed.

Lemma be_uint_nonneg (bs : list byte) : 0 <= Struct.be_uint bs.
Proof.
  unfold Struct.be_uint.
  assert (G : forall acc, 0 <= acc ->
            0 <= fold_left (fun a b => a * 256 + byte_val b) bs acc).
  { induction bs as [| b bs IH]; intros acc Hacc; simpl.
    - exact Hacc.
    - apply IH. pose proof (byte_val_range b). lia. }
  apply G. lia.
Qed.

Lemma byte_val_inj (a b : byte) : byte_val a = byte_val b -> a = b.
Proof.
  unfold byte_val. intros H. apply N2Z.inj in H.
  pose proof (Byte.of_to_N a) as Ha. rewrite H, Byte.of_to_N in Ha.
  congruence.
Qed.

(** What a call that returns a track has read. *)
Lemma _parse_track_Some (f : file) (nm : str) (lv tid : Z) (t : Track)
    (out : list log_line) :
  _parse_track f nm lv tid = (Some t, out) ->
  out = [] /\
  exists (sx sy fx fy : Z) (pts : list (Z * Z)) (f' : file),
    t = new_Track nm lv tid sx sy fx fy pts /\
    points_loop (Z.to_nat (header_point_count f - 1))
      (header_first_point f) [header_first_point f] (advance 27 f)
    = Ok (pts, f').
Proof.
  unfold _parse_track.
  destruct (parse_track_body nm lv tid f) as [[r f''] | e] eqn:H;
    [| discriminate].
  intros ->. unfold parse_track_body in H.
  apply (read_unpack_inv (A := option Track * list log_line) 1) in H.
  destruct H as [_ H].
  destruct (negb _) in H; [unfold ret in H; discriminate |].
  do 7 (apply (read_unpack_inv (A := option Track * list log_line)) in H;
        destruct H as [_ H]; rewrite ?advance_advance in H;
        rewrite ?unread_advance_skipn in H).
  cbn [Nat.add] in H. unfold bind in H.
  match type of H with
  | match ?p with _ => _ end = _ => destruct p as [[pts f'] | e] eqn:P
  end; [| discriminate].
  unfold ret in H. inversion H. subst. split; [reflexivity |].
  do 6 eexists. split; [reflexivity |]. exact P.
Qed.

Ltac read_packed H n :=
  unfold bind at 1; rewrite (read_n n _ _ _ H eq_refl);
  apply (unread_advance_n n) in H; [| reflexivity];
  unfold bind at 1.

(** A well-formed track is decoded to its anchors and to the cursor
    values of its steps. *)
Lemma _parse_track_encoded (f : file) (nm : str) (lv tid : Z)
    (sx sy fx fy pc x0 y0 : Z) (steps : list step) (rest : list byte) :
  int32 sx -> int32 sy -> int32 fx -> int32 fy ->
  int32 x0 -> int32 y0 -> 0 <= pc < 65536 ->
  Forall step_ok steps -> length steps = Z.to_nat (pc - 1) ->
  unread f = encode_track sx sy fx fy pc x0 y0 steps ++ rest ->
  _parse_track f nm lv tid =
  (Some (new_Track nm lv tid sx sy fx fy
           ((x0, y0) :: spec_points (x0, y0) steps)), []).
Proof.
  intros Hsx Hsy Hfx Hfy Hx0 Hy0 Hpc Hok Hlen H.
  unfold encode_track in H. rewrite <- !app_assoc in H.
  unfold _parse_track, parse_track_body.
  read_packed H 1%nat.
  change (Struct.unpack_B [x33] (advance 1 f)) with (Ok (51, advance 1 f)).
  cbv beta iota. rewrite Z.eqb_refl. cbn [negb].
  read_packed H 4%nat. rewrite unpack_i_pack by assumption.
  read_packed H 4%nat. rewrite unpack_i_pack by assumption.
  read_packed H 4%nat. rewrite unpack_i_pack by assumption.
  read_packed H 4%nat. rewrite unpack_i_pack by assumption.
  read_packed H 2%nat. rewrite unpack_H_pack by assumption.
  read_packed H 4%nat. rewrite unpack_i_pack by assumption.
  read_packed H 4%nat. rewrite unpack_i_pack by assumption.
  unfold bind at 1. rewrite <- Hlen.
  rewrite (points_loop_encoded steps Hok _ _ _ rest H).
  reflexivity.
Qed.

(** A wrong marker: the warning with the marker and the name, no track. *)
Lemma _parse_track_bad_marker (f : file) (nm : str) (lv tid : Z)
    (b : byte) (rest : list byte) :
  unread f = b :: rest -> b <> x33 ->
  _parse_track f nm lv tid =
  (None, [Warning_invalid_marker (byte_val b) nm]).
Proof.
  intros H Hb. change (b :: rest) with ([b] ++ rest) in H.
  unfold _parse_track, parse_track_body.
  unfold bind at 1. rewrite (read_n 1 _ _ _ H eq_refl).
  unfold bind at 1.
  change (Struct.unpack_B [b] (advance 1 f))
    with (Ok (0 * 256 + byte_val b, advance 1 f)).
  cbv beta iota. rewrite Z.mul_0_l, Z.add_0_l.
  destruct (byte_val b =? 51) eqn:E.
  - apply Z.eqb_eq in E. exfalso. apply Hb.
    apply byte_val_inj. exact E.
  - reflexivity.
Qed.

(** The cursor past the end, or on the last bytes of a shorter header:
    the [struct.error] is caught, the call returns without a track. *)
Lemma _parse_track_total (f : file) (nm : str) (lv tid : Z) :
  exists (r : option Track) (out : list log_line),
    _parse_track f nm lv tid = (r, out) /\ (length out <= 1)%nat /\
    (r = None <-> length out = 1%nat).
Proof.
  unfold _parse_track.
  destruct (parse_track_body nm lv tid f) as [[[r out] f'] | e] eqn:H.
  - exists r, out. split; [reflexivity |].
    destruct r as [t |].
    + assert (G : _parse_track f nm lv tid = (Some t, out))
        by (unfold _parse_track; rewrite H; reflexivity).
      apply _parse_track_Some in G. destruct G as [-> _]. simpl.
      split; [lia |]. split; [discriminate | lia].
    + unfold parse_track_body in H.
      apply (read_unpack_inv (A := option Track * list log_line) 1) in H.
      destruct H as [_ H].
      destruct (negb _) in H.
      * unfold ret in H. inversion H. simpl. split; [lia |]. tauto.
      * do 7 (apply (read_unpack_inv (A := option Track * list log_line)) in H;
              destruct H as [_ H]).
        unfold bind in H.
        match type of H with
        | match ?p with _ => _ end = _ => destruct p as [[pts f''] | e]
        end; [| discriminate].
        unfold ret in H. discriminate.
  - exists None, [Error_parsing_track nm e]. simpl.
    split; [reflexivity |]. split; [lia |]. tauto.
Qed.

(** ** The name loop *)

Lemma read_1 (f : file) :
  read 1 f = Ok (firstn 1 (unread f), advance (length (firstn 1 (unread f))) f).
Proof. reflexivity. Qed.

(** A terminated name is collected, terminator excluded, once the fuel
    covers its length. *)
Lemma read_name_terminated (nm : list byte) :
  forall (fuel : nat) (acc : list byte) (f : file) (rest : list byte),
    ~ In x00 nm -> unread f = nm ++ x00 :: rest ->
    (length nm < fuel)%nat ->
    read_name fuel acc f = Some (Ok (acc ++ nm, advance (S (length nm)) f)).
Proof.
  induction nm as [| b nm IH]; intros fuel acc f rest Hnm H Hfuel.
  - destruct fuel as [| fuel]; [simpl in Hfuel; lia |].
    cbn [read_name]. unfold bindF, liftF. rewrite read_1, H. simpl.
    rewrite app_nil_r. reflexivity.
  - destruct fuel as [| fuel]; [simpl in Hfuel; lia |].
    cbn [read_name]. unfold bindF at 1, liftF. rewrite read_1, H.
    cbn [app firstn length is_nul].
    destruct (Byte.eqb b x00) eqn:E.
    + apply Byte.byte_dec_bl in E. exfalso. apply Hnm. left. auto.
    + rewrite (IH fuel (acc ++ [b]) (advance 1 f) rest).
      * rewrite <- app_assoc, advance_advance. reflexivity.
      * intros Hin. apply Hnm. right. exact Hin.
      * apply (unread_advance_n 1 f [b]); [exact H | reflexivity].
      * simpl in Hfuel. lia.
Qed.

(** Without a terminator ahead the loop is still running after any
    number of iterations: at the end of the buffer [f.read(1)] returns
    the empty byte string, which is not [b'\x00']. *)
Lemma read_name_stalls (fuel : nat) :
  forall (acc : list byte) (f : file),
    ~ In x00 (unread f) -> read_name fuel acc f = None.
Proof.
  induction fuel as [| fuel IH]; intros acc f Hf; [reflexivity |].
  cbn [read_name]. unfold bindF at 1, liftF. rewrite read_1.
  destruct (unread f) as [| b rest] eqn:U.
  - cbn [firstn length is_nul]. apply IH.
    rewrite advance_0, U. exact Hf.
  - cbn [firstn length is_nul].
    destruct (Byte.eqb b x00) eqn:E.
    + apply Byte.byte_dec_bl in E. exfalso. apply Hf. left. auto.
    + apply IH. rewrite unread_advance_skipn, U. simpl.
      intros Hin. apply Hf. right. exact Hin.
Qed.

(** The loop raises nothing. *)
Lemma read_name_no_exception (fuel : nat) :
  forall (acc : list byte) (f : file) (e : exn),
    read_name fuel acc f <> Some (Err e).
Proof.
  induction fuel as [| fuel IH]; intros acc f e; [discriminate |].
  cbn [read_name]. unfold bindF at 1, liftF. rewrite read_1.
  destruct (is_nul _); [discriminate | apply IH].
Qed.

(** More fuel does not change a result. *)
Lemma read_name_more_fuel (fuel : nat) :
  forall (fuel' : nat) (acc : list byte) (f : file)
         (r : result (list byte * file)),
    read_name fuel acc f = Some r -> (fuel <= fuel')%nat ->
    read_name fuel' acc f = Some r.
Proof.
  induction fuel as [| fuel IH]; intros fuel' acc f r H Hle; [discriminate |].
  destruct fuel' as [| fuel']; [lia |].
  cbn [read_name] in *. unfold bindF at 1 in H. unfold bindF at 1.
  unfold liftF in *. rewrite read_1 in *.
  destruct (is_nul _); [exact H |].
  apply IH; [exact H | lia].
Qed.

Lemma read_entries_more_fuel (fuel fuel' : nat) (n : nat) :
  (fuel <= fuel')%nat ->
  forall (tid : Z) (acc : list entry) (f : file)
         (r : result (list entry * file)),
    read_entries fuel n tid acc f = Some r ->
    read_entries fuel' n tid acc f = Some r.
Proof.
  intros Hle. induction n as [| n IH]; intros tid acc f r H; [exact H |].
  cbn [read_entries] in *. unfold bindF at 1 in H. unfold bindF at 1.
  unfold liftF in *.
  destruct (read 4 f) as [[ob f1] | e]; [| exact H].
  unfold bindF at 1 in H. unfold bindF at 1.
  destruct (Struct.unpack_I ob f1) as [[offset f2] | e]; [| exact H].
  unfold bindF at 1 in H. unfold bindF at 1.
  destruct (read_name fuel [] f2) as [rn |] eqn:N; [| discriminate].
  rewrite (read_name_more_fuel fuel fuel' [] f2 rn N Hle).
  destruct rn as [[name_bytes f3] | e]; [| exact H].
  apply IH. exact H.
Qed.

Lemma read_levels_more_fuel (fuel fuel' : nat) (n : nat) :
  (fuel <= fuel')%nat ->
  forall (acc : list (list entry)) (f : file)
         (r : result (list (list entry) * file)),
    read_levels fuel n acc f = Some r ->
    read_levels fuel' n acc f = Some r.
Proof.
  intros Hle. induction n as [| n IH]; intros acc f r H; [exact H |].
  cbn [read_levels] in *. unfold bindF at 1 in H. unfold bindF at 1.
  unfold liftF in *.
  destruct (read 4 f) as [[cb f1] | e]; [| exact H].
  unfold bindF at 1 in H. unfold bindF at 1.
  destruct (Struct.unpack_I cb f1) as [[track_count f2] | e]; [| exact H].
  unfold bindF at 1 in H. unfold bindF at 1.
  destruct (read_entries fuel (Z.to_nat track_count) 0 [] f2) as [re |] eqn:N;
    [| discriminate].
  rewrite (read_entries_more_fuel fuel fuel' (Z.to_nat track_count) Hle 0 [] f2 re N).
  destruct re as [[level_tracks f3] | e]; [| exact H].
  apply IH. exact H.
Qed.

Lemma parse_file_more_fuel (fuel fuel' : nat) (f : file)
    (r : result (list Track * list log_line)) :
  (fuel <= fuel')%nat ->
  parse_file fuel f = Some r -> parse_file fuel' f = Some r.
Proof.
  intros Hle. unfold parse_file.
  destruct (read_levels fuel 3 [] f) as [rl |] eqn:L; [| discriminate].
  rewrite (read_levels_more_fuel fuel fuel' 3 Hle [] f rl L). auto.
Qed.

(** ** The directory *)

Lemma read_contents (n : nat) (f f' : file) (bs : list byte) :
  read n f = Ok (bs, f') -> contents f' = contents f.
Proof.
  unfold read. intros H. inversion H. reflexivity.
Qed.

Lemma unpack_file (n : nat) (conv : Z -> Z) (bs : list byte) (f f' : file)
    (v : Z) :
  Struct.unpack n conv bs f = Ok (v, f') -> f' = f.
Proof.
  unfold Struct.unpack, ret, raise.
  destruct (Nat.eqb _ _); intros H; inversion H. reflexivity.
Qed.

Lemma read_name_contents (fuel : nat) :
  forall (acc nm : list byte) (f f' : file),
    read_name fuel acc f = Some (Ok (nm, f')) -> contents f' = contents f.
Proof.
  induction fuel as [| fuel IH]; intros acc nm f f' H; [discriminate |].
  cbn [read_name] in H. unfold bindF at 1, liftF in H. rewrite read_1 in H.
  destruct (is_nul _).
  - unfold retF in H. inversion H. reflexivity.
  - apply IH in H. exact H.
Qed.

(** A level that is read: its entries are numbered from [tid] on. *)
Lemma read_entries_Ok (fuel : nat) (n : nat) :
  forall (tid : Z) (acc es : list entry) (f f' : file),
    read_entries fuel n tid acc f = Some (Ok (es, f')) ->
    contents f' = contents f /\
    exists new, es = acc ++ new /\ map snd new = ids tid n.
Proof.
  induction n as [| n IH]; intros tid acc es f f' H.
  - simpl in H. unfold retF in H. inversion H. subst.
    split; [reflexivity |]. exists []. rewrite app_nil_r. auto.
  - cbn [read_entries] in H. unfold bindF at 1, liftF in H.
    destruct (read 4 f) as [[ob f1] | e] eqn:R; [| discriminate].
    apply read_contents in R.
    unfold bindF at 1 in H.
    destruct (Struct.unpack_I ob f1) as [[offset f2] | e] eqn:U;
      [| discriminate].
    apply unpack_file in U. subst f2.
    unfold bindF at 1 in H.
    destruct (read_name fuel [] f1) as [[[nb f3] | e] |] eqn:N;
      try discriminate.
    apply read_name_contents in N.
    apply IH in H. destruct H as (C & new & -> & Hids).
    split; [congruence |].
    exists ((offset, decode_name nb, tid) :: new).
    rewrite <- app_assoc. split; [reflexivity |].
    simpl. rewrite Hids. reflexivity.
Qed.

Lemma read_levels_Ok (fuel : nat) (n : nat) :
  forall (acc levels : list (list entry)) (f f' : file),
    read_levels fuel n acc f = Some (Ok (levels, f')) ->
    contents f' = contents f /\
    exists new, levels = acc ++ new /\ length new = n /\
                Forall (fun l => map snd l = ids 0 (length l)) new.
Proof.
  induction n as [| n IH]; intros acc levels f f' H.
  - simpl in H. unfold retF in H. inversion H. subst.
    split; [reflexivity |]. exists []. rewrite app_nil_r. auto.
  - cbn [read_levels] in H. unfold bindF at 1, liftF in H.
    destruct (read 4 f) as [[cb f1] | e] eqn:R; [| discriminate].
    apply read_contents in R.
    unfold bindF at 1 in H.
    destruct (Struct.unpack_I cb f1) as [[track_count f2] | e] eqn:U;
      [| discriminate].
    apply unpack_file in U. subst f2.
    unfold bindF at 1 in H.
    destruct (read_entries fuel (Z.to_nat track_count) 0 [] f1)
      as [[[lt f3] | e] |] eqn:E; try discriminate.
    apply read_entries_Ok in E. destruct E as (C1 & new1 & -> & Hids).
    apply IH in H. destruct H as (C & new & -> & Hlen & Hall).
    split; [congruence |].
    exists (new1 :: new). rewrite <- app_assoc.
    split; [reflexivity |]. split; [simpl; lia |].
    constructor; [| exact Hall].
    simpl. rewrite Hids. f_equal.
    rewrite <- (length_map snd new1), Hids.
    clear. generalize 0. induction (Z.to_nat track_count) as [| k IHk];
      intros z; simpl; [reflexivity | rewrite <- IHk; reflexivity].
Qed.

(** ** The walk over the directory *)

Lemma decode_level_walk (f : file) (lv : Z) (l : list entry) :
  forall acc : list Track * list log_line,
    decode_level f lv l acc =
    (fst acc ++ flat_map (entry_tracks f) (map (pair lv) l),
     snd acc ++ flat_map (entry_output f) (map (pair lv) l)).
Proof.
  unfold decode_level.
  induction l as [| [[offset nm] tid] l IH]; intros [ts out].
  - simpl. rewrite !app_nil_r. reflexivity.
  - cbn [fold_left map flat_map]. rewrite IH.
    unfold entry_tracks at 2, entry_output at 2, decode_entry.
    destruct (_parse_track (seek offset f) nm lv tid) as [[t |] o]; simpl;
      rewrite <- ?app_assoc; reflexivity.
Qed.

Lemma decode_levels_walk (f : file) (levels : list (list entry)) :
  forall (lv : Z) (acc : list Track * list log_line),
    decode_levels f lv levels acc =
    (fst acc ++ flat_map (entry_tracks f) (walk lv levels),
     snd acc ++ flat_map (entry_output f) (walk lv levels)).
Proof.
  induction levels as [| l levels IH]; intros lv acc.
  - simpl. rewrite !app_nil_r. destruct acc. reflexivity.
  - cbn [decode_levels walk]. rewrite IH, decode_level_walk. simpl.
    rewrite !flat_map_app, <- !app_assoc. reflexivity.
Qed.

Lemma decode_entry_contents (f f' : file) (le : Z * entry) :
  contents f' = contents f -> decode_entry f' le = decode_entry f le.
Proof.
  intros C. destruct le as [lv [[offset nm] tid]].
  unfold decode_entry, seek. rewrite C. reflexivity.
Qed.

(** A source that parses: three levels numbered from 0, the tracks and
    the printed lines those of the visits, in the order of the walk. *)
Lemma parse_file_Ok (fuel : nat) (f : file) (ts : list Track)
    (out : list log_line) :
  parse_file fuel f = Some (Ok (ts, out)) ->
  exists l0 l1 l2 f',
    read_levels fuel 3 [] f = Some (Ok ([l0; l1; l2], f')) /\
    Forall (fun l => map snd l = ids 0 (length l)) [l0; l1; l2] /\
    ts = flat_map (entry_tracks f) (walk 0 [l0; l1; l2]) /\
    out = flat_map (entry_output f) (walk 0 [l0; l1; l2]).
Proof.
  unfold parse_file.
  destruct (read_levels fuel 3 [] f) as [[[levels f'] | e] |] eqn:L;
    try discriminate.
  intros H. inversion H as [E]. clear H.
  rewrite decode_levels_walk in E. simpl fst in E. simpl snd in E.
  simpl app in E.
  destruct (read_levels_Ok fuel 3 [] levels f f' L) as (C & new & -> & Hlen & Hall).
  destruct new as [| l0 [| l1 [| l2 [| l3 new]]]]; try discriminate.
  exists l0, l1, l2, f'. simpl app in *.
  split; [reflexivity |]. split; [exact Hall |].
  inversion E. split.
  - apply flat_map_ext. intros le. unfold entry_tracks.
    rewrite (decode_entry_contents f f' le C). reflexivity.
  - apply flat_map_ext. intros le. unfold entry_output.
    rewrite (decode_entry_contents f f' le C). reflexivity.
Qed.

(** ** Directory order *)

Lemma ids_lower (n : nat) :
  forall start : Z, Forall (fun i => start <= i) (ids start n).
Proof.
  induction n as [| n IH]; intros start; simpl; constructor; [lia |].
  eapply Forall_impl; [| apply IH]. simpl. intros; lia.
Qed.

Lemma ids_sorted (n : nat) :
  forall start : Z, StronglySorted Z.lt (ids start n).
Proof.
  induction n as [| n IH]; intros start; simpl; constructor; [apply IH |].
  eapply Forall_impl; [| apply ids_lower]. simpl. intros; lia.
Qed.

Lemma StronglySorted_app {A : Type} (R : A -> A -> Prop) (l1 l2 : list A) :
  StronglySorted R l1 -> StronglySorted R l2 ->
  (forall a b, In a l1 -> In b l2 -> R a b) ->
  StronglySorted R (l1 ++ l2).
Proof.
  intros S1 S2 H. induction S1 as [| a l1 S1 IH Ha]; [exact S2 |].
  simpl. constructor.
  - apply IH. intros x y Hx Hy. apply H; [right; exact Hx | exact Hy].
  - apply Forall_app. split; [exact Ha |].
    apply Forall_forall. intros y Hy. apply H; [left; reflexivity | exact Hy].
Qed.

Lemma level_keys_sorted (lv : Z) (l : list entry) :
  map snd l = ids 0 (length l) ->
  StronglySorted key_lt (map entry_key (map (pair lv) l)).
Proof.
  intros H. pose proof (ids_sorted (length l) 0) as S. rewrite <- H in S.
  clear H. induction l as [| e l IH]; simpl; [constructor |].
  inversion S as [| ? ? S' Hall]. subst. constructor; [apply IH; exact S' |].
  rewrite Forall_map in Hall. rewrite !Forall_map.
  eapply Forall_impl; [| exact Hall].
  intros e' He'. right. simpl. auto.
Qed.

Lemma walk_levels (levels : list (list entry)) :
  forall lv : Z,
    Forall (fun le => lv <= fst le < lv + Z.of_nat (length levels))
      (walk lv levels).
Proof.
  induction levels as [| l levels IH]; intros lv; [constructor |].
  cbn [walk]. apply Forall_app. split.
  - rewrite Forall_map. apply Forall_forall. intros e _. simpl. lia.
  - eapply Forall_impl; [| apply IH]. simpl. intros; lia.
Qed.

Lemma walk_sorted (levels : list (list entry)) :
  forall lv : Z,
    Forall (fun l => map snd l = ids 0 (length l)) levels ->
    StronglySorted key_lt (map entry_key (walk lv levels)).
Proof.
  induction levels as [| l levels IH]; intros lv Hall; [constructor |].
  inversion Hall as [| ? ? Hl Hrest]. subst.
  cbn [walk]. rewrite map_app. apply StronglySorted_app.
  - apply level_keys_sorted. exact Hl.
  - apply IH. exact Hrest.
  - intros a b Ha Hb.
    apply in_map_iff in Ha. destruct Ha as (le & <- & Hle).
    apply in_map_iff in Hle. destruct Hle as (e & <- & _).
    apply in_map_iff in Hb. destruct Hb as (le' & <- & Hle').
    pose proof (walk_levels levels (lv + 1)) as W.
    rewrite Forall_forall in W. apply W in Hle'.
    left. simpl. lia.
Qed.

(** A decoded track carries the name, level and index of its entry. *)
Lemma entry_tracks_key (f : file) (le : Z * entry) (t : Track) :
  In t (entry_tracks f le) ->
  track_key t = entry_key le /\ name t = snd (fst (snd le)) /\
  source_file t = [] /\ points t <> [].
Proof.
  destruct le as [lv [[offset nm] tid]]. unfold entry_tracks, decode_entry.
  destruct (_parse_track (seek offset f) nm lv tid) as [[t' |] o] eqn:P;
    simpl; [| tauto].
  intros [<- | []].
  apply _parse_track_Some in P.
  destruct P as (_ & sx & sy & fx & fy & pts & f' & -> & L).
  apply points_loop_length in L.
  repeat split. simpl. destruct pts; [simpl in L; lia | discriminate].
Qed.

Lemma tracks_sorted (f : file) (L : list (Z * entry)) :
  StronglySorted key_lt (map entry_key L) ->
  StronglySorted key_lt (map track_key (flat_map (entry_tracks f) L)).
Proof.
  induction L as [| le L IH]; intros S; [constructor |].
  simpl in S. inversion S as [| ? ? S' Hall]. subst.
  cbn [flat_map]. rewrite map_app. apply StronglySorted_app.
  - pose proof (entry_tracks_key f le) as K.
    unfold entry_tracks in *. destruct (fst (decode_entry f le)); simpl.
    + repeat constructor.
    + constructor.
  - apply IH. exact S'.
  - intros a b Ha Hb.
    apply in_map_iff in Ha. destruct Ha as (t & <- & Ht).
    apply in_map_iff in Hb. destruct Hb as (t' & <- & Ht').
    apply in_flat_map in Ht'. destruct Ht' as (le' & Hle' & Ht').
    apply entry_tracks_key in Ht. apply entry_tracks_key in Ht'.
    destruct Ht as [-> _]. destruct Ht' as [-> _].
    rewrite Forall_forall in Hall. apply Hall.
    apply in_map. exact Hle'.
Qed.

(** * The claims *)

(** ** Track stream decoder *)

(** C1. The point loop follows the per-point rule: on the encoding of any
    sequence of steps (a relative move of two signed bytes, or the escape
    byte -1 followed by two signed 32-bit big-endian integers) it appends
    the cursor values the rule prescribes, the escape resetting the cursor
    to the origin before the delta is added; the cursor starts at the
    first absolute point of the header.  From (100,100) the deltas (1,1),
    (2,-2) give (100,100), (101,101), (103,99), and after (2,3) the
    escaped point (5,7) gives exactly (5,7). *)
Theorem point_rule :
  (forall (steps : list step) (f : file) (cursor : Z * Z)
          (pts : list (Z * Z)) (rest : list byte),
      Forall step_ok steps ->
      unread f = encode_steps steps ++ rest ->
      points_loop (length steps) cursor pts f =
      Ok (pts ++ spec_points cursor steps,
          advance (length (encode_steps steps)) f)) /\
  (forall (f : file) (nm : str) (lv tid sx sy fx fy pc x0 y0 : Z)
          (steps : list step) (rest : list byte),
      int32 sx -> int32 sy -> int32 fx -> int32 fy ->
      int32 x0 -> int32 y0 -> 0 <= pc < 65536 ->
      Forall step_ok steps -> length steps = Z.to_nat (pc - 1) ->
      unread f = encode_track sx sy fx fy pc x0 y0 steps ++ rest ->
      _parse_track f nm lv tid =
      (Some (new_Track nm lv tid sx sy fx fy
               ((x0, y0) :: spec_points (x0, y0) steps)), [])) /\
  points_loop 2 (100, 100) [(100, 100)] (mkfile [x01; x01; x02; xfe] 0) =
    Ok ([(100, 100); (101, 101); (103, 99)],
        mkfile [x01; x01; x02; xfe] 4) /\
  points_loop 1 (2, 3) [(2, 3)]
    (mkfile [xff; x00; x00; x00; x05; x00; x00; x00; x07] 0) =
    Ok ([(2, 3); (5, 7)],
        mkfile [xff; x00; x00; x00; x05; x00; x00; x00; x07] 9).
Proof.
  split; [| split; [| split]].
  - intros steps f cursor pts rest Hok H.
    exact (points_loop_encoded steps Hok f cursor pts rest H).
  - intros. eapply _parse_track_encoded; eassumption.
  - reflexivity.
  - reflexivity.
Qed.

Lemma point_rule_witness :
  points_loop 3 (100, 100) [(100, 100)] (mkfile (encode_steps sample_steps) 0) =
    Ok ([(100, 100); (101, 101); (103, 99); (5, 7)],
        mkfile (encode_steps sample_steps) 13) /\
  _parse_track (mkfile sample_track 0) (lit "A") 0 0 =
    (Some (new_Track (lit "A") 0 0 1 (-1) 65536 8
             [(100, 100); (101, 101); (103, 99); (5, 7)]), []).
Proof.
  assert (Hok : Forall step_ok sample_steps).
  { unfold sample_steps, step_ok, int8, int32.
    repeat constructor; simpl; lia. }
  split.
  - apply (proj1 point_rule sample_steps
             (mkfile (encode_steps sample_steps) 0)
             (100, 100) [(100, 100)] []); [exact Hok | reflexivity].
  - apply (proj1 (proj2 point_rule) (mkfile sample_track 0) (lit "A") 0 0
             1 (-1) 65536 8 4 100 100 sample_steps []);
      try (unfold int32; simpl; lia); try lia; try exact Hok; reflexivity.
Defined.

(** C10. A header declaring [point_count = 0] still has its first
    absolute point read, and the track returned holds exactly that point:
    for every track that is decoded, the number of points is
    [max(point_count, 1)]. *)
Theorem zero_count_keeps_first_point :
  (forall (f : file) (nm : str) (lv tid : Z) (t : Track)
          (out : list log_line),
      _parse_track f nm lv tid = (Some t, out) ->
      Z.of_nat (length (points t)) = Z.max (header_point_count f) 1 /\
      (header_point_count f = 0 ->
       points t = [(point_transform (fst (header_first_point f)),
                    point_transform (snd (header_first_point f)))])) /\
  (forall (f : file) (nm : str) (lv tid sx sy fx fy x0 y0 : Z)
          (rest : list byte),
      int32 sx -> int32 sy -> int32 fx -> int32 fy ->
      int32 x0 -> int32 y0 ->
      unread f = encode_track sx sy fx fy 0 x0 y0 [] ++ rest ->
      _parse_track f nm lv tid =
      (Some (new_Track nm lv tid sx sy fx fy [(x0, y0)]), [])).
Proof.
  split.
  - intros f nm lv tid t out H.
    apply _parse_track_Some in H.
    destruct H as (_ & sx & sy & fx & fy & pts & f' & -> & L).
    split.
    + apply points_loop_length in L.
      unfold new_Track, __post_init__. cbn [points]. rewrite length_map, L.
      pose proof (be_uint_nonneg (firstn 2 (skipn 17 (unread f)))) as P.
      fold (header_point_count f) in P. simpl length. lia.
    + intros Z0. rewrite Z0 in L. simpl in L. unfold ret in L.
      inversion L. reflexivity.
  - intros f nm lv tid sx sy fx fy x0 y0 rest Hsx Hsy Hfx Hfy Hx0 Hy0 H.
    apply (_parse_track_encoded f nm lv tid sx sy fx fy 0 x0 y0 [] rest);
      try assumption; try lia; [constructor | reflexivity].
Qed.

Lemma zero_count_keeps_first_point_witness :
  _parse_track (mkfile zero_count_track 0) (lit "A") 0 0 =
    (Some (new_Track (lit "A") 0 0 1 (-1) 65536 8 [(100, 100)]), []) /\
  Z.of_nat (length (points (new_Track (lit "A") 0 0 1 (-1) 65536 8 [(100, 100)])))
    = Z.max (header_point_count (mkfile zero_count_track 0)) 1.
Proof.
  assert (E : _parse_track (mkfile zero_count_track 0) (lit "A") 0 0 =
              (Some (new_Track (lit "A") 0 0 1 (-1) 65536 8 [(100, 100)]), [])).
  { apply (proj2 zero_count_keeps_first_point (mkfile zero_count_track 0)
             (lit "A") 0 0 1 (-1) 65536 8 100 100 []);
      try (unfold int32; simpl; lia); reflexivity. }
  split; [exact E |].
  exact (proj1 (proj1 zero_count_keeps_first_point _ _ _ _ _ _ E)).
Defined.

(** C4 (amended). Every track that is decoded has at least one point,
    and as many points as the [point_count] of its header whenever that
    count is at least 1. *)
Theorem points_length_is_point_count (f : file) (nm : str) (lv tid : Z)
    (t : Track) (out : list log_line) :
  _parse_track f nm lv tid = (Some t, out) ->
  points t <> [] /\
  (1 <= header_point_count f ->
   Z.of_nat (length (points t)) = header_point_count f).
Proof.
  intros H. apply _parse_track_Some in H.
  destruct H as (_ & sx & sy & fx & fy & pts & f' & -> & L).
  apply points_loop_length in L.
  unfold new_Track, __post_init__. cbn [points]. split.
  - destruct pts; [simpl in L; lia | discriminate].
  - intros P. rewrite length_map, L. simpl length. lia.
Qed.

Lemma points_length_is_point_count_witness :
  points (new_Track (lit "A") 0 0 1 (-1) 65536 8
            [(100, 100); (101, 101); (103, 99); (5, 7)]) <> [] /\
  Z.of_nat (length (points (new_Track (lit "A") 0 0 1 (-1) 65536 8
                              [(100, 100); (101, 101); (103, 99); (5, 7)])))
  = header_point_count (mkfile sample_track 0).
Proof.
  assert (E : _parse_track (mkfile sample_track 0) (lit "A") 0 0 =
              (Some (new_Track (lit "A") 0 0 1 (-1) 65536 8
                       [(100, 100); (101, 101); (103, 99); (5, 7)]), []))
    by (vm_compute; reflexivity).
  destruct (points_length_is_point_count _ _ _ _ _ _ E) as [NE LEN].
  split; [exact NE |]. apply LEN. vm_compute. discriminate.
Defined.

(** C4 as stated fails on a header that declares no point: the track is
    decoded with one point, not with [point_count = 0] points. *)
Lemma points_length_counterexample :
  exists t : Track,
    _parse_track (mkfile zero_count_track 0) (lit "A") 0 0 = (Some t, []) /\
    header_point_count (mkfile zero_count_track 0) = 0 /\
    Z.of_nat (length (points t)) <> header_point_count (mkfile zero_count_track 0).
Proof.
  eexists. split; [vm_compute; reflexivity |].
  split; [reflexivity | vm_compute; discriminate].
Qed.

(** ** Coordinate transformer *)

(** C2 (amended). The anchors of a track are rescaled by
    [(value << 16) >> 3] on unbounded integers: nothing wraps around at
    32 bits, the result is the raw value times 2^13 with its sign, and it
    is the result of the 32-bit computation exactly for the raw values
    from -2^15 up to 2^15 - 1. *)
Theorem anchor_rescale (nm : str) (lv tid sx sy fx fy : Z)
    (pts : list (Z * Z)) (v : Z) :
  let t := new_Track nm lv tid sx sy fx fy pts in
  (start_x t = anchor_transform sx /\ start_y t = anchor_transform sy /\
   finish_x t = anchor_transform fx /\ finish_y t = anchor_transform fy) /\
  anchor_transform v = Z.shiftr (Z.shiftl v 16) 3 /\
  anchor_transform v = v * 2 ^ 13 /\
  Z.sgn (anchor_transform v) = Z.sgn v /\
  (anchor_transform v = anchor_transform_i32 v <-> - 2 ^ 15 <= v < 2 ^ 15).
Proof.
  cbv zeta. split; [repeat split |]. split; [reflexivity |].
  split; [apply anchor_transform_mul |].
  split; [| apply anchor_transform_i32_agrees].
  rewrite anchor_transform_mul, Z.sgn_mul. change (Z.sgn (2 ^ 13)) with 1.
  lia.
Qed.

Lemma anchor_rescale_witness :
  anchor_transform (-3) = anchor_transform_i32 (-3) /\
  anchor_transform (-3) = -24576.
Proof.
  pose proof (anchor_rescale [] 0 0 0 0 0 0 [] (-3)) as H. cbv zeta in H.
  destruct H as (_ & _ & M & _ & A).
  split; [apply A; lia | exact M].
Defined.

(** C2 as stated fails on the raw anchor 65536, a signed 32-bit value:
    wrapping at 32 bits gives 0, the track holds 2^29, as does the finish
    anchor decoded from the sample track. *)
Lemma anchor_rescale_counterexample :
  int32 65536 /\
  start_x (new_Track [] 0 0 65536 0 0 0 []) = 536870912 /\
  anchor_transform_i32 65536 = 0 /\
  start_x (new_Track [] 0 0 65536 0 0 0 []) <> anchor_transform_i32 65536 /\
  option_map finish_x (fst (_parse_track (mkfile sample_track 0) (lit "A") 0 0))
    = Some 536870912.
Proof.
  unfold int32. split; [lia |]. split; [reflexivity |].
  split; [reflexivity |]. split; [discriminate | vm_compute; reflexivity].
Qed.

(** C8. The two rescales are not inverses of each other: the points go
    through [(value << 3) >> 16], the quotient by 2^13 rounded toward
    minus infinity, the anchors through [(value << 16) >> 3]; at 8 the
    anchor rescale gives 65536 and the point rescale 0. *)
Theorem rescales_not_inverse :
  (forall x : Z, point_transform x = Z.shiftr (Z.shiftl x 3) 16) /\
  (forall x : Z, point_transform x = x / 2 ^ 13) /\
  (forall x : Z, anchor_transform x = Z.shiftr (Z.shiftl x 16) 3) /\
  point_transform (-1) = -1 /\
  anchor_transform 8 = 65536 /\ point_transform 8 = 0 /\
  anchor_transform 8 <> point_transform 8 /\
  anchor_transform (point_transform 8) <> 8 /\
  (forall (nm : str) (lv tid sx sy fx fy : Z) (pts : list (Z * Z)),
      points (new_Track nm lv tid sx sy fx fy pts) =
      map (fun p => (point_transform (fst p), point_transform (snd p))) pts).
Proof.
  repeat split; try discriminate. apply point_transform_div.
Qed.

(** ** Directory reader *)

Lemma cp1251_char_None (b : byte) : cp1251_char b = None <-> b = x98.
Proof.
  destruct b; vm_compute; split; intros H; solve [reflexivity | discriminate H].
Qed.

Lemma decode_cp1251_ignore_app (a b : list byte) :
  decode_cp1251_ignore (a ++ b) =
  decode_cp1251_ignore a ++ decode_cp1251_ignore b.
Proof.
  induction a as [| x a IH]; [reflexivity |].
  simpl. destruct (cp1251_char x); simpl; rewrite IH; reflexivity.
Qed.

Lemma unpack_I_pack (z : Z) (f : file) :
  0 <= z < 2 ^ 32 -> Struct.unpack_I (pack_i z) f = Ok (z, f).
Proof.
  intros H. unfold Struct.unpack_I, Struct.unpack, ret.
  change (Nat.eqb (length (pack_i z)) 4) with true. cbv iota.
  rewrite be_uint_pack_i, Z.mod_small by exact H. reflexivity.
Qed.

(** One directory entry: offset, name up to the terminator, decoded. *)
Lemma read_entries_step (fuel n : nat) (tid offset : Z) (acc : list entry)
    (f : file) (nm rest : list byte) :
  0 <= offset < 2 ^ 32 -> ~ In x00 nm -> (length nm < fuel)%nat ->
  unread f = pack_i offset ++ nm ++ x00 :: rest ->
  read_entries fuel (S n) tid acc f =
  read_entries fuel n (tid + 1) (acc ++ [(offset, decode_name nm, tid)])
    (advance (5 + length nm) f).
Proof.
  intros Hoff Hnm Hfuel H.
  cbn [read_entries]. unfold bindF at 1, liftF.
  rewrite (read_n 4 _ _ _ H eq_refl).
  apply (unread_advance_n 4) in H; [| reflexivity].
  unfold bindF at 1. rewrite unpack_I_pack by exact Hoff.
  unfold bindF at 1.
  rewrite (read_name_terminated nm fuel [] _ rest Hnm H Hfuel).
  rewrite advance_advance. reflexivity.
Qed.

(** C5 (amended). The bytes of a name are collected up to, and without,
    the 0x00 terminator and decoded with cp1251; a byte without a
    character in that code page (0x98) is dropped, not replaced by
    U+FFFD; the decoding raises nothing; every underscore of the decoded
    name becomes a space. *)
Theorem name_decoding :
  (forall (fuel n : nat) (tid offset : Z) (acc : list entry) (f : file)
          (nm rest : list byte),
      0 <= offset < 2 ^ 32 -> ~ In x00 nm -> (length nm < fuel)%nat ->
      unread f = pack_i offset ++ nm ++ x00 :: rest ->
      read_entries fuel (S n) tid acc f =
      read_entries fuel n (tid + 1) (acc ++ [(offset, decode_name nm, tid)])
        (advance (5 + length nm) f)) /\
  (forall (fuel : nat) (acc : list byte) (f : file) (e : exn),
      read_name fuel acc f <> Some (Err e)) /\
  (forall a b : list byte, decode_name (a ++ b) = decode_name a ++ decode_name b) /\
  (forall b : byte,
      decode_name [b] =
      match cp1251_char b with
      | Some c => [if (c =? 95)%N then 32%N else c]
      | None => []
      end) /\
  (forall b : byte, cp1251_char b = None <-> b = x98) /\
  (forall bs : list byte, ~ In 95%N (decode_name bs)) /\
  (forall bs : list byte,
      ~ In x98 bs -> decode_name bs = decode_name_replace bs).
Proof.
  split; [exact read_entries_step |].
  split; [exact read_name_no_exception |].
  split; [| split; [| split; [exact cp1251_char_None | split]]].
  - intros a b. unfold decode_name, replace_underscore.
    rewrite decode_cp1251_ignore_app, map_app. reflexivity.
  - intros b. unfold decode_name. simpl.
    destruct (cp1251_char b); reflexivity.
  - intros bs Hin. unfold decode_name, replace_underscore in Hin.
    apply in_map_iff in Hin. destruct Hin as (c & Hc & _).
    destruct (c =? 95)%N eqn:E; [discriminate |].
    apply N.eqb_neq in E. congruence.
  - intros bs Hbs. unfold decode_name, decode_name_replace. f_equal.
    induction bs as [| b bs IH]; [reflexivity |].
    simpl. destruct (cp1251_char b) eqn:E.
    + rewrite IH; [reflexivity |]. intros Hin. apply Hbs. right. exact Hin.
    + apply cp1251_char_None in E. exfalso. apply Hbs. left. auto.
Qed.

Lemma name_decoding_witness :
  read_entries 4 1 0 [] (mkfile (pack_i 21 ++ [x41; x5f; xc0] ++ [x00]) 0) =
    Some (Ok ([(21, [65; 32; 1040]%N, 0)],
              mkfile (pack_i 21 ++ [x41; x5f; xc0] ++ [x00]) 8)) /\
  decode_name [x41; x5f; xc0] = decode_name_replace [x41; x5f; xc0].
Proof.
  split.
  - apply (proj1 name_decoding 4%nat 0%nat 0 21 []
             (mkfile (pack_i 21 ++ [x41; x5f; xc0] ++ [x00]) 0)
             [x41; x5f; xc0] []).
    + lia.
    + simpl. intros [H | [H | [H | []]]]; discriminate H.
    + simpl. lia.
    + reflexivity.
  - apply (proj2 (proj2 (proj2 (proj2 (proj2 (proj2 name_decoding)))))).
    simpl. intros [H | [H | [H | []]]]; discriminate H.
Defined.

(** C5 as stated fails on a name holding the byte 0x98: it is dropped,
    where the replacement policy would give U+FFFD. *)
Lemma name_decoding_counterexample :
  decode_name [x41; x98; x5f] = [65; 32]%N /\
  decode_name_replace [x41; x98; x5f] = [65; 65533; 32]%N /\
  decode_name [x41; x98; x5f] <> decode_name_replace [x41; x98; x5f].
Proof.
  split; [reflexivity |]. split; [reflexivity | discriminate].
Qed.

(** C6 (amended). In a source whose directory is read, an entry whose
    offset points at a byte other than 0x33 yields no track and exactly
    one printed warning, which carries the marker byte and the name of the
    track (not its level); the walk goes on: the tracks and the printed
    lines of the source are those of all its entries, each decoded on its
    own, in directory order. *)
Theorem bad_marker_is_isolated (fuel : nat) (f f' : file)
    (levels : list (list entry)) :
  read_levels fuel 3 [] f = Some (Ok (levels, f')) ->
  parse_file fuel f =
    Some (Ok (flat_map (entry_tracks f) (walk 0 levels),
              flat_map (entry_output f) (walk 0 levels))) /\
  forall (lv offset tid : Z) (nm : str) (b : byte) (rest : list byte),
    In (lv, (offset, nm, tid)) (walk 0 levels) ->
    unread (seek offset f) = b :: rest -> b <> x33 ->
    entry_tracks f (lv, (offset, nm, tid)) = [] /\
    entry_output f (lv, (offset, nm, tid)) =
      [Warning_invalid_marker (byte_val b) nm].
Proof.
  intros H. split.
  - unfold parse_file. rewrite H, decode_levels_walk. simpl fst. simpl snd.
    simpl app.
    destruct (read_levels_Ok fuel 3 [] levels f f' H) as (C & _).
    do 3 f_equal; apply flat_map_ext; intros le;
      unfold entry_tracks, entry_output;
      rewrite (decode_entry_contents f f' le C); reflexivity.
  - intros lv offset tid nm b rest _ Hb Hne.
    unfold entry_tracks, entry_output, decode_entry.
    rewrite (_parse_track_bad_marker _ nm lv tid b rest Hb Hne).
    split; reflexivity.
Qed.

Lemma bad_marker_is_isolated_witness :
  entry_tracks (mkfile sample_source 0) (2, (0, lit "B", 0)) = [] /\
  entry_output (mkfile sample_source 0) (2, (0, lit "B", 0)) =
    [Warning_invalid_marker 0 (lit "B")].
Proof.
  assert (D : read_levels 2 3 [] (mkfile sample_source 0) =
              Some (Ok ([[(30, lit "A", 0); (0, lit "B", 1)]; [];
                         [(0, lit "B", 0)]],
                        mkfile sample_source 30)))
    by (vm_compute; reflexivity).
  apply (proj2 (bad_marker_is_isolated 2 (mkfile sample_source 0) _ _ D)
           2 0 0 (lit "B") x00 (skipn 1 sample_source)).
  - simpl. right. right. left. reflexivity.
  - vm_compute. reflexivity.
  - discriminate.
Defined.

(** C6 as stated fails on the level: the entry B of level 0 and the entry
    B of level 2 of the sample source, both on a wrong marker, print the
    same line, which then cannot carry the level. *)
Lemma bad_marker_level_counterexample :
  parse_file 2 (mkfile sample_source 0) =
    Some (Ok (flat_map (entry_tracks (mkfile sample_source 0))
                [(0, (30, lit "A", 0))],
              [Warning_invalid_marker 0 (lit "B");
               Warning_invalid_marker 0 (lit "B")])) /\
  entry_output (mkfile sample_source 0) (0, (0, lit "B", 1)) =
  entry_output (mkfile sample_source 0) (2, (0, lit "B", 0)) /\
  fst (0, (0, lit "B", 1)) <> fst (2, (0, lit "B", 0)).
Proof.
  split; [vm_compute; reflexivity |].
  split; [vm_compute; reflexivity | discriminate].
Qed.

Lemma truncated_name_buffer_stalls (fuel : nat) :
  parse_file fuel (mkfile truncated_name_buffer 0) = None.
Proof.
  unfold parse_file.
  cbn [read_levels]. unfold bindF at 1, liftF.
  change (read 4 (mkfile truncated_name_buffer 0))
    with (Ok ([x00; x00; x00; x01], mkfile truncated_name_buffer 4)).
  unfold bindF at 1.
  change (Struct.unpack_I [x00; x00; x00; x01] (mkfile truncated_name_buffer 4))
    with (Ok (1, mkfile truncated_name_buffer 4)).
  unfold bindF at 1.
  change (Z.to_nat 1) with 1%nat.
  cbn [read_entries]. unfold bindF at 1, liftF.
  change (read 4 (mkfile truncated_name_buffer 4))
    with (Ok ([x00; x00; x00; x00], mkfile truncated_name_buffer 8)).
  unfold bindF at 1.
  change (Struct.unpack_I [x00; x00; x00; x00] (mkfile truncated_name_buffer 8))
    with (Ok (0, mkfile truncated_name_buffer 8)).
  unfold bindF at 1.
  rewrite read_name_stalls; [reflexivity |].
  simpl. intros [H | []]. discriminate H.
Qed.

(** C3, on the code. The directory of [truncated_name_buffer] announces
    one entry whose name has no terminator before the end of the buffer:
    whatever the number of iterations allowed, the name loop has not
    returned, and neither has [parse]; no exception is raised. *)
Theorem name_scan_never_ends :
  forall fuel : nat,
    read_name fuel [] (mkfile truncated_name_buffer 8) = None /\
    parse_file fuel (mkfile truncated_name_buffer 0) = None /\
    forall e : exn,
      parse_file fuel (mkfile truncated_name_buffer 0) <> Some (Err e).
Proof.
  intros fuel. split; [| split].
  - apply read_name_stalls. simpl. intros [H | []]. discriminate H.
  - apply truncated_name_buffer_stalls.
  - intros e. rewrite truncated_name_buffer_stalls. discriminate.
Qed.

(** ** Batch aggregator *)

Section BatchFacts.

Variable fs : str -> option (list byte).
Variable stem : str -> str.

Lemma parse_more_fuel (fuel fuel' : nat) (p : str)
    (r : result (list Track * list log_line)) :
  (fuel <= fuel')%nat ->
  parse fs fuel p = Some r -> parse fs fuel' p = Some r.
Proof.
  intros Hle. unfold parse. destruct (fs p); [| auto].
  apply parse_file_more_fuel. exact Hle.
Qed.

(** The loop, when it ends: the tracks of the sources that parse, in
    the order of the paths, and the paths of the others. *)
Lemma files_loop_Some (fuel : nat) (paths : list str) :
  forall (all : list Track) (failed : list str)
         (r : list Track * list str),
    files_loop fs stem fuel paths all failed = Some r ->
    r = (all ++ flat_map (source_tracks fs stem fuel) paths,
         failed ++ filter (source_fails fs fuel) paths).
Proof.
  induction paths as [| p paths IH]; intros all failed r H.
  - simpl in H. inversion H. simpl. rewrite !app_nil_r. reflexivity.
  - cbn [files_loop] in H. cbn [flat_map filter].
    unfold source_tracks at 1, source_fails at 1.
    destruct (parse fs fuel p) as [[[ts out] | e] |]; [| | discriminate].
    + apply IH in H. rewrite H, <- app_assoc. reflexivity.
    + apply IH in H. rewrite H, <- app_assoc. reflexivity.
Qed.

(** The loop ends as soon as every source does. *)
Lemma files_loop_ends (fuel : nat) (paths : list str) :
  (forall p, In p paths -> parse fs fuel p <> None) ->
  forall (all : list Track) (failed : list str),
    files_loop fs stem fuel paths all failed <> None.
Proof.
  induction paths as [| p paths IH]; intros Hp all failed; [discriminate |].
  cbn [files_loop].
  pose proof (Hp p (or_introl eq_refl)) as P.
  destruct (parse fs fuel p) as [[[ts out] | e] |]; [| | congruence];
    apply IH; intros q Hq; apply Hp; right; exact Hq.
Qed.

(** A source that is still in its name loop keeps the whole batch
    from returning. *)
Lemma files_loop_stalls (fuel : nat) (paths : list str) (p : str) :
  In p paths -> parse fs fuel p = None ->
  forall (all : list Track) (failed : list str),
    files_loop fs stem fuel paths all failed = None.
Proof.
  induction paths as [| q paths IH]; intros Hin Hp all failed; [destruct Hin |].
  cbn [files_loop]. destruct Hin as [-> | Hin].
  - rewrite Hp. reflexivity.
  - destruct (parse fs fuel q) as [[[ts out] | e] |]; auto.
Qed.

(** Enough fuel for every source is enough for the batch. *)
Lemma parse_multiple_files_ends (paths : list str) :
  (forall p, In p paths -> exists fuel, parse fs fuel p <> None) ->
  exists fuel, forall fuel', (fuel <= fuel')%nat ->
    parse_multiple_files fs stem fuel' paths <> None.
Proof.
  intros H.
  assert (G : exists fuel, forall fuel', (fuel <= fuel')%nat ->
              forall p, In p paths -> parse fs fuel' p <> None).
  { induction paths as [| p paths IH].
    - exists 0%nat. intros _ _ p [].
    - destruct IH as [n1 IH]; [intros q Hq; apply H; right; exact Hq |].
      destruct (H p (or_introl eq_refl)) as [n2 Hn2].
      exists (Nat.max n1 n2). intros fuel' Hle q [<- | Hq].
      + destruct (parse fs n2 p) as [r |] eqn:E; [| congruence].
        rewrite (parse_more_fuel n2 fuel' p r); [discriminate | lia | exact E].
      + apply IH; [lia | exact Hq]. }
  destruct G as [fuel G]. exists fuel. intros fuel' Hle.
  apply files_loop_ends. apply G. exact Hle.
Qed.

End BatchFacts.

Lemma parse_file_order (fuel : nat) (f : file) (ts : list Track)
    (out : list log_line) :
  parse_file fuel f = Some (Ok (ts, out)) ->
  StronglySorted key_lt (map track_key ts) /\
  Forall (fun t => 0 <= level t <= 2 /\ source_file t = [] /\ points t <> []) ts.
Proof.
  intros H. apply parse_file_Ok in H.
  destruct H as (l0 & l1 & l2 & f' & _ & Hids & -> & _). split.
  - apply tracks_sorted. apply walk_sorted. exact Hids.
  - apply Forall_forall. intros t Ht.
    apply in_flat_map in Ht. destruct Ht as (le & Hle & Ht).
    apply entry_tracks_key in Ht. destruct Ht as (K & _ & S & P).
    pose proof (walk_levels [l0; l1; l2] 0) as W.
    rewrite Forall_forall in W. apply W in Hle. simpl in Hle.
    unfold track_key, entry_key in K. inversion K as [[L T]].
    repeat split; try assumption; lia.
Qed.

Lemma source_tracks_order (fs : str -> option (list byte)) (stem : str -> str)
    (fuel : nat) (p : str) :
  Forall (fun t => source_file t = stem p /\ 0 <= level t <= 2)
    (source_tracks fs stem fuel p) /\
  StronglySorted key_lt (map track_key (source_tracks fs stem fuel p)).
Proof.
  unfold source_tracks.
  destruct (parse fs fuel p) as [[[ts out] | e] |] eqn:E;
    try (split; constructor).
  unfold parse in E. destruct (fs p) as [buf |]; [| discriminate].
  apply parse_file_order in E. destruct E as [S F]. split.
  - rewrite Forall_map. eapply Forall_impl; [| exact F].
    intros t (L & _). simpl. split; [reflexivity | exact L].
  - rewrite map_map. exact S.
Qed.

(** A source whose directory raises contributes no track and one entry
    of [failed_files], and the loop goes on with the next path. *)
Lemma directory_error_fails_source (fs : str -> option (list byte))
    (stem : str -> str) (fuel : nat) (p : str) (rest : list str)
    (all : list Track) (failed : list str) (e : exn) :
  parse fs fuel p = Some (Err e) ->
  files_loop fs stem fuel (p :: rest) all failed =
  files_loop fs stem fuel rest all (failed ++ [p]).
Proof.
  intros H. cbn [files_loop]. rewrite H. reflexivity.
Qed.

(** C7, on the code. A source cut inside its first count raises in the
    directory: it gives no track, its path is recorded and the batch goes
    on.  A source cut inside a name does not raise: the name loop never
    returns and the batch with it, whatever the fuel. *)
Theorem truncated_directory_in_batch :
  parse_multiple_files sample_fs sample_stem 2
    [lit "a.mrg"; lit "b.mrg"; lit "c.mrg"] =
    Some (source_tracks sample_fs sample_stem 2 (lit "a.mrg") ++
          source_tracks sample_fs sample_stem 2 (lit "c.mrg"),
          [lit "b.mrg"]) /\
  parse sample_fs 2 (lit "b.mrg") = Some (Err (struct_error 4)) /\
  forall fuel : nat,
    parse_multiple_files stalling_fs sample_stem fuel
      [lit "a.mrg"; lit "b.mrg"; lit "c.mrg"] = None.
Proof.
  split; [vm_compute; reflexivity |].
  split; [vm_compute; reflexivity |].
  intros fuel. unfold parse_multiple_files.
  apply files_loop_stalls with (p := lit "b.mrg").
  - simpl. auto.
  - unfold parse.
    change (stalling_fs (lit "b.mrg")) with (Some truncated_name_buffer).
    apply truncated_name_buffer_stalls.
Qed.

(** * Further properties of the module *)

(** ** [_parse_track] on short buffers *)

Lemma points_loop_consumes (n : nat) :
  forall (cur : Z * Z) (pts pts' : list (Z * Z)) (f f' : file),
    points_loop n cur pts f = Ok (pts', f') ->
    (2 * n <= length (unread f))%nat.
Proof.
  induction n as [| n IH]; intros cur pts pts' f f' H; [lia |].
  cbn [points_loop] in H.
  apply (read_unpack_inv (A := list (Z * Z)) 1) in H.
  destruct H as [L0 H].
  destruct (_ =? -1) in H.
  - apply (read_unpack_inv (A := list (Z * Z)) 4) in H. destruct H as [L1 H].
    apply (read_unpack_inv (A := list (Z * Z)) 4) in H. destruct H as [L2 H].
    apply IH in H.
    rewrite !unread_advance_skipn in *.
    rewrite ?length_firstn, ?length_skipn in *. lia.
  - apply (read_unpack_inv (A := list (Z * Z)) 1) in H. destruct H as [L1 H].
    apply IH in H.
    rewrite !unread_advance_skipn in *.
    rewrite ?length_firstn, ?length_skipn in *. lia.
Qed.

(** What a call that returns a track has read, field by field. *)
Lemma _parse_track_Some_header (f : file) (nm : str) (lv tid : Z) (t : Track)
    (out : list log_line) :
  _parse_track f nm lv tid = (Some t, out) ->
  (27 <= length (unread f))%nat /\
  firstn 1 (unread f) = [x33] /\
  exists (pts : list (Z * Z)) (f' : file),
    t = new_Track nm lv tid (header_i32 1 f) (header_i32 5 f)
          (header_i32 9 f) (header_i32 13 f) pts /\
    points_loop (Z.to_nat (header_point_count f - 1))
      (header_first_point f) [header_first_point f] (advance 27 f)
    = Ok (pts, f').
Proof.
  unfold _parse_track.
  destruct (parse_track_body nm lv tid f) as [[r f''] | e] eqn:H;
    [| discriminate].
  intros ->. unfold parse_track_body in H.
  apply (read_unpack_inv (A := option Track * list log_line) 1) in H.
  destruct H as [L0 H].
  destruct (Struct.be_uint (firstn 1 (unread f)) =? 51) eqn:Mk;
    [| unfold ret in H; discriminate].
  cbn [negb] in H.
  do 6 (apply (read_unpack_inv (A := option Track * list log_line)) in H;
        destruct H as [_ H]; rewrite ?advance_advance in H;
        rewrite ?unread_advance_skipn in H).
  apply (read_unpack_inv (A := option Track * list log_line)) in H.
  destruct H as [L7 H]. rewrite ?advance_advance in H.
  rewrite ?unread_advance_skipn in H. rewrite ?unread_advance_skipn in L7.
  cbn [Nat.add] in H, L7. unfold bind in H.
  match type of H with
  | match ?p with _ => _ end = _ => destruct p as [[pts f'] | e] eqn:P
  end; [| discriminate].
  unfold ret in H. inversion H. subst. split; [| split].
  - rewrite length_firstn, length_skipn in L7. lia.
  - destruct (unread f) as [| b rest]; [discriminate L0 |].
    cbn [firstn] in *. apply Z.eqb_eq in Mk.
    f_equal. apply byte_val_inj.
    unfold Struct.be_uint in Mk. simpl in Mk. exact Mk.
  - exists pts. eexists. split; [reflexivity | exact P].
Qed.

Lemma be_uint_4_range (bs : list byte) :
  length bs = 4%nat -> 0 <= Struct.be_uint bs < 2 ^ 32.
Proof.
  destruct bs as [| a [| b [| c [| d [| e bs]]]]]; try discriminate.
  intros _. unfold Struct.be_uint. simpl.
  pose proof (byte_val_range a). pose proof (byte_val_range b).
  pose proof (byte_val_range c). pose proof (byte_val_range d).
  change (2 ^ 32) with 4294967296. lia.
Qed.

Lemma be_uint_le_2_range (bs : list byte) :
  (length bs <= 2)%nat -> 0 <= Struct.be_uint bs < 65536.
Proof.
  destruct bs as [| a [| b [| c bs]]]; simpl; intros H;
    unfold Struct.be_uint; simpl; try lia.
  - pose proof (byte_val_range a). lia.
  - pose proof (byte_val_range a). pose proof (byte_val_range b). lia.
Qed.

Lemma signed_32_range (u : Z) : 0 <= u < 2 ^ 32 -> int32 (Struct.signed 32 u).
Proof.
  intros H. unfold int32, Struct.signed. change (32 - 1) with 31.
  change (2 ^ 32) with (2 * 2 ^ 31) in *.
  destruct (u <? 2 ^ 31) eqn:E;
    [apply Z.ltb_lt in E | apply Z.ltb_ge in E]; lia.
Qed.

Lemma header_i32_range (k : nat) (f : file) :
  (k + 4 <= length (unread f))%nat -> int32 (header_i32 k f).
Proof.
  intros H. apply signed_32_range, be_uint_4_range.
  rewrite length_firstn, length_skipn. lia.
Qed.

Lemma anchor_transform_range (v : Z) :
  int32 v ->
  anchor_transform v mod 8192 = 0 /\
  - 2 ^ 44 <= anchor_transform v < 2 ^ 44.
Proof.
  unfold int32. intros H. rewrite anchor_transform_mul.
  change (2 ^ 13) with 8192. split.
  - apply Z.mod_mul. discriminate.
  - change (2 ^ 44) with (2 ^ 31 * 8192). lia.
Qed.

(** A call returns a track and prints nothing, or returns no track and
    prints exactly one line, which names the track: the warning when the
    marker byte is there and is not 0x33, the error line otherwise. *)
Theorem parse_track_outcome (f : file) (nm : str) (lv tid : Z) :
  (exists t : Track, _parse_track f nm lv tid = (Some t, [])) \/
  (exists b : byte,
      firstn 1 (unread f) = [b] /\ b <> x33 /\
      _parse_track f nm lv tid =
      (None, [Warning_invalid_marker (byte_val b) nm])) \/
  (exists e : exn,
      (firstn 1 (unread f) = [] \/ firstn 1 (unread f) = [x33]) /\
      _parse_track f nm lv tid = (None, [Error_parsing_track nm e])).
Proof.
  destruct (unread f) as [| b rest] eqn:U.
  - right. right. exists (struct_error 1). split; [left; reflexivity |].
    unfold _parse_track, parse_track_body, bind, read. fold (unread f).
    rewrite U. reflexivity.
  - destruct (Byte.byte_eq_dec b x33) as [-> | Hb].
    + destruct (_parse_track f nm lv tid) as [[t |] out] eqn:P.
      * left. exists t. apply _parse_track_Some in P.
        destruct P as [-> _]. reflexivity.
      * right. right.
        unfold _parse_track in P |- *.
        destruct (parse_track_body nm lv tid f) as [[[r o] f'] | e] eqn:B.
        -- exfalso. inversion P. subst. unfold parse_track_body in B.
           apply (read_unpack_inv (A := option Track * list log_line) 1) in B.
           destruct B as [_ B]. rewrite U in B.
           change (negb (Struct.be_uint (firstn 1 (x33 :: rest)) =? 51))
             with false in B. cbv iota in B.
           do 7 (apply (read_unpack_inv (A := option Track * list log_line))
                   in B; destruct B as [_ B]).
           unfold bind in B.
           match type of B with
           | match ?p with _ => _ end = _ => destruct p as [[pts f''] | e]
           end; [| discriminate].
           unfold ret in B. discriminate.
        -- exists e. split; [right; reflexivity |]. symmetry. exact P.
    + right. left. exists b. split; [reflexivity |]. split; [exact Hb |].
      apply (_parse_track_bad_marker f nm lv tid b rest U Hb).
Qed.

(** An offset at or past the end of the buffer: no track, and the error
    line of the one-byte marker read. *)
Theorem offset_past_end (buf : list byte) (p : nat) (offset : Z) (nm : str)
    (lv tid : Z) :
  (length buf <= Z.to_nat offset)%nat ->
  _parse_track (seek offset (mkfile buf p)) nm lv tid =
  (None, [Error_parsing_track nm (struct_error 1)]).
Proof.
  intros H. unfold _parse_track, parse_track_body, bind, read, seek.
  cbn [contents pos]. rewrite skipn_all2 by exact H. reflexivity.
Qed.

Lemma offset_past_end_witness :
  _parse_track (seek 9 (mkfile truncated_name_buffer 0)) (lit "A") 0 0 =
  (None, [Error_parsing_track (lit "A") (struct_error 1)]).
Proof.
  apply (offset_past_end truncated_name_buffer 0 9 (lit "A") 0 0).
  simpl. lia.
Defined.

(** A decoded track carries the name, level and index it was asked for
    and no source; each anchor is a multiple of 8192 between -2^44 and
    2^44; there are between 1 and 65535 points. *)
Theorem track_fields (f : file) (nm : str) (lv tid : Z) (t : Track)
    (out : list log_line) :
  _parse_track f nm lv tid = (Some t, out) ->
  name t = nm /\ level t = lv /\ track_id t = tid /\ source_file t = [] /\
  Forall (fun a => a mod 8192 = 0 /\ - 2 ^ 44 <= a < 2 ^ 44)
    [start_x t; start_y t; finish_x t; finish_y t] /\
  1 <= Z.of_nat (length (points t)) <= 65535.
Proof.
  intros H. apply _parse_track_Some_header in H.
  destruct H as (L & _ & pts & f' & -> & P).
  apply points_loop_length in P.
  unfold new_Track, __post_init__. cbn [name level track_id source_file
    start_x start_y finish_x finish_y points].
  repeat (split; [reflexivity |]). split.
  - repeat constructor; apply anchor_transform_range, header_i32_range; lia.
  - rewrite length_map, P. simpl length.
    assert (B : 0 <= header_point_count f < 65536).
    { apply be_uint_le_2_range. rewrite length_firstn. lia. }
    lia.
Qed.

Lemma track_fields_witness :
  Forall (fun a => a mod 8192 = 0 /\ - 2 ^ 44 <= a < 2 ^ 44)
    [8192; -8192; 536870912; 65536].
Proof.
  exact (proj1 (proj2 (proj2 (proj2 (proj2
    (track_fields (mkfile sample_track 0) (lit "A") 0 0
       (new_Track (lit "A") 0 0 1 (-1) 65536 8
          [(100, 100); (101, 101); (103, 99); (5, 7)]) []
       eq_refl)))))).
Defined.

(** ** [parse] on short, empty and well-formed directories *)

(** A buffer of fewer than four bytes, the empty one included: the first
    count cannot be unpacked, [parse] raises [struct.error] at once. *)
Theorem parse_short_buffer (buf : list byte) (fuel : nat) :
  (length buf < 4)%nat ->
  parse_file fuel (mkfile buf 0) = Some (Err (struct_error 4)).
Proof.
  intros H. unfold parse_file. cbn [read_levels].
  unfold bindF at 1, liftF, read. cbn [contents pos skipn].
  unfold bindF at 1, Struct.unpack_I, Struct.unpack.
  destruct (Nat.eqb (length (firstn 4 buf)) 4) eqn:E.
  - apply Nat.eqb_eq in E. rewrite length_firstn in E. lia.
  - reflexivity.
Qed.

Lemma parse_short_buffer_witness :
  parse_file 0 (mkfile [] 0) = Some (Err (struct_error 4)).
Proof.
  apply (parse_short_buffer [] 0). simpl. lia.
Defined.

Lemma read_entries_encoded (fuel : nat) (es : list (Z * list byte)) :
  Forall (entry_ok fuel) es ->
  forall (tid : Z) (acc : list entry) (f : file) (rest : list byte),
    unread f = flat_map encode_entry es ++ rest ->
    read_entries fuel (length es) tid acc f =
    Some (Ok (acc ++ decoded_entries tid es,
              advance (length (flat_map encode_entry es)) f)).
Proof.
  induction 1 as [| [offset nm] es (Ho & Hn & Hf) _ IH];
    intros tid acc f rest H.
  - simpl. unfold retF. rewrite app_nil_r, advance_0. reflexivity.
  - cbn [flat_map] in H. unfold encode_entry at 1 in H.
    cbn [fst snd] in *. rewrite <- !app_assoc in H.
    cbn [length].
    rewrite (read_entries_step fuel (length es) tid offset acc f nm
               (flat_map encode_entry es ++ rest) Ho Hn Hf H).
    rewrite (IH (tid + 1) _ _ rest).
    + cbn [decoded_entries flat_map fst snd]. rewrite <- app_assoc.
      rewrite advance_advance.
      replace (length (encode_entry (offset, nm) ++ flat_map encode_entry es))
        with (5 + length nm + length (flat_map encode_entry es))%nat;
        [reflexivity |].
      unfold encode_entry. cbn [fst snd].
      rewrite !length_app. simpl. lia.
    + apply (unread_advance_n (5 + length nm) f (pack_i offset ++ nm ++ [x00])).
      * rewrite <- !app_assoc. exact H.
      * rewrite !length_app. simpl. lia.
Qed.

Lemma read_levels_encoded (fuel : nat) (ls : list (list (Z * list byte))) :
  Forall (fun es => Forall (entry_ok fuel) es /\
                    Z.of_nat (length es) < 2 ^ 32) ls ->
  forall (acc : list (list entry)) (f : file) (rest : list byte),
    unread f = flat_map encode_level ls ++ rest ->
    read_levels fuel (length ls) acc f =
    Some (Ok (acc ++ map (decoded_entries 0) ls,
              advance (length (flat_map encode_level ls)) f)).
Proof.
  induction 1 as [| es ls (Hes & Hlen) _ IH]; intros acc f rest H.
  - simpl. unfold retF. rewrite app_nil_r, advance_0. reflexivity.
  - cbn [flat_map] in H. unfold encode_level at 1 in H.
    rewrite <- !app_assoc in H.
    cbn [length read_levels]. unfold bindF at 1, liftF.
    rewrite (read_n 4 _ _ _ H eq_refl).
    pose proof (unread_advance_n 4 _ _ _ H eq_refl) as H1.
    unfold bindF at 1. rewrite unpack_I_pack by lia.
    unfold bindF at 1. rewrite Nat2Z.id.
    rewrite (read_entries_encoded fuel es Hes 0 [] _ _ H1).
    cbn [app].
    rewrite (IH _ _ rest).
    + cbn [map flat_map]. rewrite <- app_assoc.
      rewrite !advance_advance.
      replace (length (encode_level es ++ flat_map encode_level ls))
        with (4 + length (flat_map encode_entry es) +
              length (flat_map encode_level ls))%nat;
        [reflexivity |].
      unfold encode_level. rewrite !length_app. reflexivity.
    + rewrite advance_advance.
      apply (unread_advance_n _ f
               (pack_i (Z.of_nat (length es)) ++ flat_map encode_entry es)).
      * rewrite <- !app_assoc. exact H.
      * rewrite !length_app. reflexivity.
Qed.

(** A buffer that starts with three well-formed levels (each a count and
    as many entries, each an offset and a terminated name shorter than the
    fuel) is parsed: neither exception nor endless loop; the tracks and
    the printed lines are those of the entries, numbered from 0 within
    each level, their names decoded. *)
Theorem parse_well_formed_directory (fuel : nat)
    (l0 l1 l2 : list (Z * list byte)) (buf rest : list byte) :
  Forall (fun es => Forall (entry_ok fuel) es /\
                    Z.of_nat (length es) < 2 ^ 32) [l0; l1; l2] ->
  buf = encode_level l0 ++ encode_level l1 ++ encode_level l2 ++ rest ->
  let levels := map (decoded_entries 0) [l0; l1; l2] in
  parse_file fuel (mkfile buf 0) =
  Some (Ok (flat_map (entry_tracks (mkfile buf 0)) (walk 0 levels),
            flat_map (entry_output (mkfile buf 0)) (walk 0 levels))).
Proof.
  intros Hok Hbuf levels.
  assert (R : read_levels fuel 3 [] (mkfile buf 0) =
              Some (Ok (levels,
                        advance (length (flat_map encode_level [l0; l1; l2]))
                          (mkfile buf 0)))).
  { apply (read_levels_encoded fuel [l0; l1; l2] Hok [] (mkfile buf 0) rest).
    unfold unread. cbn [pos contents skipn flat_map].
    rewrite Hbuf, app_nil_r, <- !app_assoc. reflexivity. }
  unfold parse_file. rewrite R, decode_levels_walk. reflexivity.
Qed.

Lemma parse_well_formed_directory_witness :
  parse_file 2 (mkfile sample_source 0) =
  Some (Ok (flat_map (entry_tracks (mkfile sample_source 0))
              (walk 0 [[(30, lit "A", 0); (0, lit "B", 1)]; [];
                       [(0, lit "B", 0)]]),
            flat_map (entry_output (mkfile sample_source 0))
              (walk 0 [[(30, lit "A", 0); (0, lit "B", 1)]; [];
                       [(0, lit "B", 0)]]))).
Proof.
  apply (parse_well_formed_directory 2
           [(30, [x41]); (0, [x42])] [] [(0, [x42])]
           sample_source sample_track).
  - unfold entry_ok. repeat constructor; simpl; try lia;
      intros [H | []]; discriminate H.
  - reflexivity.
Defined.

(** ** Each entry once *)

Lemma entry_one_result (f : file) (le : Z * entry) :
  (length (entry_tracks f le) + length (entry_output f le) = 1)%nat.
Proof.
  destruct le as [lv [[offset nm] tid]].
  unfold entry_tracks, entry_output, decode_entry.
  destruct (_parse_track_total (seek offset f) nm lv tid)
    as (r & out & -> & Hle & Hiff).
  cbn [fst snd]. destruct r as [t |]; simpl.
  - destruct out as [| l out]; [reflexivity |].
    destruct out; simpl in *; [| lia].
    assert (C : Some t = None) by (apply Hiff; reflexivity). discriminate C.
  - apply Hiff. reflexivity.
Qed.

Lemma flat_map_lengths (f : file) (L : list (Z * entry)) :
  (length (flat_map (entry_tracks f) L) +
   length (flat_map (entry_output f) L) = length L)%nat.
Proof.
  induction L as [| le L IH]; [reflexivity |].
  cbn [flat_map length]. rewrite !length_app.
  pose proof (entry_one_result f le). lia.
Qed.

Lemma length_walk (levels : list (list entry)) :
  forall lv : Z, length (walk lv levels) = length (concat levels).
Proof.
  induction levels as [| l levels IH]; intros lv; [reflexivity |].
  cbn [walk concat]. rewrite !length_app, length_map, IH. reflexivity.
Qed.

(** Every directory entry gives exactly one thing: the tracks returned
    and the lines printed are together as many as the entries. *)
Theorem every_entry_accounted (fuel : nat) (f f' : file)
    (levels : list (list entry)) :
  read_levels fuel 3 [] f = Some (Ok (levels, f')) ->
  exists (ts : list Track) (out : list log_line),
    parse_file fuel f = Some (Ok (ts, out)) /\
    (length ts + length out = length (concat levels))%nat.
Proof.
  intros H. unfold parse_file. rewrite H, decode_levels_walk.
  do 2 eexists. split; [reflexivity |].
  cbn [fst snd app]. rewrite flat_map_lengths. apply length_walk.
Qed.

Lemma every_entry_accounted_witness :
  exists (ts : list Track) (out : list log_line),
    parse_file 2 (mkfile sample_source 0) = Some (Ok (ts, out)) /\
    (length ts + length out = 3)%nat.
Proof.
  apply (every_entry_accounted 2 (mkfile sample_source 0)
           (mkfile sample_source 30)
           [[(30, lit "A", 0); (0, lit "B", 1)]; []; [(0, lit "B", 0)]]).
  vm_compute. reflexivity.
Defined.

Lemma key_lt_irrefl (k : Z * Z) : ~ key_lt k k.
Proof.
  unfold key_lt. lia.
Qed.

Lemma StronglySorted_NoDup {A : Type} (R : A -> A -> Prop) (l : list A) :
  (forall a, ~ R a a) -> StronglySorted R l -> NoDup l.
Proof.
  intros Hirr S. induction S as [| a l S IH Ha]; constructor; [| exact IH].
  intros Hin. rewrite Forall_forall in Ha. exact (Hirr a (Ha a Hin)).
Qed.

(** No two tracks of one source have the same level and index. *)
Theorem track_keys_unique (fuel : nat) (f : file) (ts : list Track)
    (out : list log_line) :
  parse_file fuel f = Some (Ok (ts, out)) ->
  NoDup (map track_key ts).
Proof.
  intros H. apply parse_file_order in H. destruct H as [S _].
  apply (StronglySorted_NoDup key_lt); [exact key_lt_irrefl | exact S].
Qed.

Lemma track_keys_unique_witness :
  NoDup [(0, 0); (0, 1); (1, 0)].
Proof.
  apply (track_keys_unique 2 (mkfile ordered_source 0)
           [new_Track (lit "A") 0 0 3 3 4 4 [(0, 81920); (5, 81925)];
            new_Track (lit "B") 0 1 1 1 2 2 [(81920, 0)];
            new_Track (lit "C") 1 0 1 1 2 2 [(81920, 0)]] []).
  vm_compute. reflexivity.
Defined.

(** ** The two rescales, composed *)

(** Rescaling as a point what was rescaled as an anchor gives the value
    back; the other way round rounds down to a multiple of 2^13. *)
Theorem rescale_round_trip (x : Z) :
  point_transform (anchor_transform x) = x /\
  anchor_transform (point_transform x) = x - x mod 2 ^ 13 /\
  anchor_transform (point_transform x) <= x.
Proof.
  rewrite point_transform_div, !anchor_transform_mul, point_transform_div.
  change (2 ^ 13) with 8192. split; [| split].
  - apply Z.div_mul. discriminate.
  - Z.div_mod_to_equations. lia.
  - Z.div_mod_to_equations. lia.
Qed.

(** ** Names *)

Lemma decode_name_cons (b : byte) (bs : list byte) :
  decode_name (b :: bs) = decode_name [b] ++ decode_name bs.
Proof.
  unfold decode_name, replace_underscore. simpl.
  destruct (cp1251_char b); reflexivity.
Qed.

(** A name loses one character for each byte 0x98 and no other; a name
    of ASCII bytes is decoded to the same characters, the underscore
    apart. *)
Theorem decode_name_ascii (bs : list byte) :
  (length (decode_name bs) + count_occ Byte.byte_eq_dec bs x98 = length bs)%nat /\
  (Forall (fun b => byte_val b < 128) bs ->
   decode_name bs =
   map (fun b => if Byte.eqb b x5f then 32%N else Byte.to_N b) bs).
Proof.
  split.
  - induction bs as [| b bs IH]; [reflexivity |].
    rewrite decode_name_cons, length_app. cbn [count_occ length].
    unfold decode_name at 1. simpl decode_cp1251_ignore.
    destruct (Byte.byte_eq_dec b x98) as [-> | Hb].
    + simpl. lia.
    + destruct (cp1251_char b) as [c |] eqn:E.
      * simpl. lia.
      * apply cp1251_char_None in E. contradiction.
  - induction 1 as [| b bs Hb _ IH]; [reflexivity |].
    rewrite decode_name_cons, IH. cbn [map]. f_equal.
    unfold decode_name. simpl. unfold cp1251_char.
    unfold byte_val in Hb.
    destruct (Byte.to_N b <? 128)%N eqn:E; [| apply N.ltb_ge in E; lia].
    simpl. destruct (Byte.eqb b x5f) eqn:U.
    + apply Byte.byte_dec_bl in U. subst b. reflexivity.
    + destruct (Byte.to_N b =? 95)%N eqn:V; [| reflexivity].
      apply N.eqb_eq in V. exfalso.
      assert (X : b = x5f).
      { apply byte_val_inj. unfold byte_val. rewrite V. reflexivity. }
      subst b. discriminate U.
Qed.

Lemma decode_name_ascii_witness :
  decode_name [x41; x5f; x42] = lit "A B".
Proof.
  apply (proj2 (decode_name_ascii [x41; x5f; x42])).
  repeat constructor.
Defined.

(** ** The batch, composed *)

Lemma files_loop_Some_parse (fs : str -> option (list byte))
    (stem : str -> str) (fuel : nat) (paths : list str)
    (all : list Track) (failed : list str) (r : list Track * list str) :
  files_loop fs stem fuel paths all failed = Some r ->
  forall p, In p paths -> parse fs fuel p <> None.
Proof.
  intros H p Hin Hp.
  rewrite (files_loop_stalls fs stem fuel paths p Hin Hp all failed) in H.
  discriminate H.
Qed.

(** Parsing the paths of two batches in one batch gives the tracks of the
    first followed by those of the second, and likewise for the failed
    files. *)
Theorem batch_concat (fs : str -> option (list byte)) (stem : str -> str)
    (fuel : nat) (paths1 paths2 : list str)
    (all1 all2 : list Track) (failed1 failed2 : list str) :
  parse_multiple_files fs stem fuel paths1 = Some (all1, failed1) ->
  parse_multiple_files fs stem fuel paths2 = Some (all2, failed2) ->
  parse_multiple_files fs stem fuel (paths1 ++ paths2) =
  Some (all1 ++ all2, failed1 ++ failed2).
Proof.
  unfold parse_multiple_files. intros H1 H2.
  pose proof (files_loop_Some_parse fs stem fuel paths1 [] [] _ H1) as P1.
  pose proof (files_loop_Some_parse fs stem fuel paths2 [] [] _ H2) as P2.
  apply files_loop_Some in H1. apply files_loop_Some in H2.
  inversion H1. inversion H2. subst.
  destruct (files_loop fs stem fuel (paths1 ++ paths2) [] []) as [r |] eqn:E.
  - apply files_loop_Some in E. rewrite E, flat_map_app, filter_app.
    reflexivity.
  - exfalso. revert E. apply files_loop_ends. intros p Hin.
    apply in_app_or in Hin. destruct Hin; auto.
Qed.

Lemma batch_concat_witness :
  parse_multiple_files sample_fs sample_stem 2
    ([lit "a.mrg"; lit "b.mrg"] ++ [lit "c.mrg"; lit "d.mrg"]) =
  Some (source_tracks sample_fs sample_stem 2 (lit "a.mrg") ++
        source_tracks sample_fs sample_stem 2 (lit "c.mrg"),
        [lit "b.mrg"] ++ [lit "d.mrg"]).
Proof.
  apply (batch_concat sample_fs sample_stem 2
           [lit "a.mrg"; lit "b.mrg"] [lit "c.mrg"; lit "d.mrg"]);
    vm_compute; reflexivity.
Defined.

(** Files that cannot be opened: each is listed as failed, in order, no
    track comes out and nothing is saved; the batch returns whatever the
    fuel. *)
Theorem batch_of_missing_files (fs : str -> option (list byte))
    (stem : str -> str) (fuel : nat) (paths : list str) (prefix : str) :
  (forall p, In p paths -> fs p = None) ->
  parse_multiple_files fs stem fuel paths = Some ([], paths) /\
  option_map (fun r => save_combined prefix (fst r))
    (parse_multiple_files fs stem fuel paths) = Some [].
Proof.
  intros H.
  assert (G : forall failed,
             files_loop fs stem fuel paths [] failed =
             Some ([], failed ++ paths)).
  { induction paths as [| p paths IH]; intros failed.
    - simpl. rewrite app_nil_r. reflexivity.
    - cbn [files_loop]. unfold parse.
      rewrite (H p (or_introl eq_refl)).
      rewrite IH, <- app_assoc; [reflexivity |].
      intros q Hq. apply H. right. exact Hq. }
  unfold parse_multiple_files. rewrite G. split; reflexivity.
Qed.

Lemma batch_of_missing_files_witness :
  parse_multiple_files sample_fs sample_stem 0
    [lit "d.mrg"; lit "e.mrg"] = Some ([], [lit "d.mrg"; lit "e.mrg"]).
Proof.
  apply (batch_of_missing_files sample_fs sample_stem 0
           [lit "d.mrg"; lit "e.mrg"] (lit "all_tracks")).
  intros p [<- | [<- | []]]; vm_compute; reflexivity.
Defined.

(** ** The CSV rows *)

Lemma lit_inj (s1 s2 : string) : lit s1 = lit s2 -> s1 = s2.
Proof.
  revert s2. induction s1 as [| a s1 IH]; intros [| b s2] H;
    try discriminate H; [reflexivity |].
  simpl in H. inversion H as [[Ha Hs]]. f_equal.
  - rewrite <- (ascii_N_embedding a), <- (ascii_N_embedding b), Ha.
    reflexivity.
  - apply IH. exact Hs.
Qed.

Lemma to_int_not_nil (z : Z) :
  Z.to_int z <> Decimal.Pos Decimal.Nil /\
  Z.to_int z <> Decimal.Neg Decimal.Nil.
Proof.
  destruct z as [| p | p]; simpl; split; intros H; try discriminate H;
    inversion H as [E]; exact (Unsigned.to_uint_nonnil p E).
Qed.

Lemma str_of_int_inj (a b : Z) : str_of_int a = str_of_int b -> a = b.
Proof.
  unfold str_of_int. intros H. apply lit_inj in H.
  apply (f_equal NilZero.int_of_string) in H.
  destruct (to_int_not_nil a) as [Pa Na].
  destruct (to_int_not_nil b) as [Pb Nb].
  rewrite !NilZero.isi in H by assumption.
  inversion H as [E].
  rewrite <- (DecimalZ.of_to a), <- (DecimalZ.of_to b), E. reflexivity.
Qed.

Lemma uint_digits_no_bar (d : Decimal.uint) :
  ~ In 124%N (lit (NilEmpty.string_of_uint d)).
Proof.
  induction d; simpl; [tauto | ..]; intros [H | H]; try discriminate H; auto.
Qed.

Lemma str_of_int_no_bar (z : Z) : ~ In 124%N (str_of_int z).
Proof.
  unfold str_of_int, NilZero.string_of_int, NilZero.string_of_uint.
  destruct (Z.to_int z) as [d | d]; destruct d;
    try (simpl; intros [H | H]; try discriminate H;
         try (destruct H as [H | H]; try discriminate H);
         try exact (uint_digits_no_bar _ H); auto).
Qed.

Lemma str_of_int_not_empty (z : Z) : str_of_int z <> [].
Proof.
  unfold str_of_int, NilZero.string_of_int, NilZero.string_of_uint.
  destruct (Z.to_int z) as [d | d]; destruct d; discriminate.
Qed.

Lemma app_sep_inj (c : N) (x : str) :
  forall (y r1 r2 : str),
    ~ In c x -> ~ In c y -> x ++ c :: r1 = y ++ c :: r2 ->
    x = y /\ r1 = r2.
Proof.
  induction x as [| a x IH]; intros [| b y] r1 r2 Hx Hy H; simpl in H.
  - inversion H. auto.
  - inversion H. subst. exfalso. apply Hy. left. reflexivity.
  - inversion H. subst. exfalso. apply Hx. left. reflexivity.
  - inversion H as [[Hab Hr]]. subst.
    destruct (IH y r1 r2) as [-> ->]; auto;
      intros Hin; [apply Hx | apply Hy]; right; exact Hin.
Qed.

Lemma join_cons2 (sep p q : str) (rest : list str) :
  join sep (p :: q :: rest) = p ++ sep ++ join sep (q :: rest).
Proof. reflexivity. Qed.

(** Joined fields that are not empty and hold no bar can be told apart. *)
Lemma join_bar_inj (xs : list str) :
  forall ys : list str,
    Forall (fun p => p <> [] /\ ~ In 124%N p) xs ->
    Forall (fun p => p <> [] /\ ~ In 124%N p) ys ->
    join [124%N] xs = join [124%N] ys -> xs = ys.
Proof.
  induction xs as [| x xs IH]; intros ys Hxs Hys H.
  - destruct ys as [| y [| y' ys]]; [reflexivity | |].
    + inversion Hys as [| ? ? [Hy _] _]. subst. simpl in H.
      symmetry in H. contradiction.
    + inversion Hys as [| ? ? [Hy _] _]. subst.
      rewrite join_cons2 in H. simpl in H.
      destruct y; [contradiction | discriminate H].
  - inversion Hxs as [| ? ? [Hx Bx] Hxs']. subst.
    destruct ys as [| y ys].
    + destruct xs as [| x' xs]; simpl in H.
      * contradiction.
      * destruct x; [contradiction | discriminate H].
    + inversion Hys as [| ? ? [Hy By] Hys']. subst.
      destruct xs as [| x' xs]; destruct ys as [| y' ys].
      * simpl in H. subst. reflexivity.
      * rewrite join_cons2 in H. simpl join at 1 in H. subst x.
        exfalso. apply Bx. apply in_or_app. right. left. reflexivity.
      * rewrite join_cons2 in H. simpl join at 2 in H. subst y.
        exfalso. apply By. apply in_or_app. right. left. reflexivity.
      * rewrite !join_cons2 in H. cbn [app] in H.
        apply app_sep_inj in H; [| exact Bx | exact By].
        destruct H as [-> H]. f_equal. apply IH; assumption.
Qed.

Lemma points_column_inj (g : Z * Z -> Z) (ps qs : list (Z * Z)) :
  join (lit "|") (map (fun p => str_of_int (g p)) ps) =
  join (lit "|") (map (fun p => str_of_int (g p)) qs) ->
  map g ps = map g qs.
Proof.
  intros H. apply join_bar_inj in H.
  - revert qs H. induction ps as [| p ps IH]; intros [| q qs] H;
      try discriminate H; [reflexivity |].
    simpl in H. inversion H as [[E R]]. simpl. f_equal.
    + apply str_of_int_inj. exact E.
    + apply IH. exact R.
  - rewrite Forall_map. apply Forall_forall. intros p _.
    split; [apply str_of_int_not_empty | apply str_of_int_no_bar].
  - rewrite Forall_map. apply Forall_forall. intros p _.
    split; [apply str_of_int_not_empty | apply str_of_int_no_bar].
Qed.

Lemma pairs_eq (ps : list (Z * Z)) :
  forall qs : list (Z * Z),
    map fst ps = map fst qs -> map snd ps = map snd qs -> ps = qs.
Proof.
  induction ps as [| [a b] ps IH]; intros [| [c d] qs] H1 H2;
    try discriminate H1; [reflexivity |].
  simpl in *. inversion H1. inversion H2. subst. f_equal. apply IH; assumption.
Qed.

(** The CSV export loses nothing: the row of a track determines the
    track, coordinates included, and the rows of a list of tracks
    determine the list; every row has the eleven cells of the header. *)
Theorem csv_rows_determine_tracks :
  (forall t1 t2 : Track, csv_row t1 = csv_row t2 -> t1 = t2) /\
  (forall ts1 ts2 : list Track,
      save_tracks_csv ts1 = save_tracks_csv ts2 -> ts1 = ts2) /\
  (forall ts : list Track,
      length (save_tracks_csv ts) = S (length ts) /\
      Forall (fun row => length row = length csv_header) (save_tracks_csv ts)).
Proof.
  assert (R : forall t1 t2 : Track, csv_row t1 = csv_row t2 -> t1 = t2).
  { intros [n1 l1 i1 sx1 sy1 fx1 fy1 ps1 sf1] [n2 l2 i2 sx2 sy2 fx2 fy2 ps2 sf2].
    unfold csv_row. cbn [name level track_id start_x start_y finish_x
      finish_y points source_file].
    intros H. injection H as Hsf Hn Hl Hi Hsx Hsy Hfx Hfy Hc Hpx Hpy.
    subst.
    apply (points_column_inj fst) in Hpx.
    apply (points_column_inj snd) in Hpy.
    rewrite (pairs_eq ps1 ps2 Hpx Hpy). reflexivity. }
  split; [exact R |]. split.
  - intros ts1 ts2 H. unfold save_tracks_csv in H.
    apply (f_equal (@tl _)) in H. cbn [tl] in H.
    revert ts2 H. induction ts1 as [| t1 ts1 IH]; intros [| t2 ts2] H;
      try discriminate H; [reflexivity |].
    pose proof (f_equal (hd []) H) as Hh.
    pose proof (f_equal (@tl _) H) as Ht.
    cbn [map hd tl] in Hh, Ht. f_equal.
    + apply R. exact Hh.
    + apply IH. exact Ht.
  - intros ts. unfold save_tracks_csv. split.
    + simpl. rewrite length_map. reflexivity.
    + constructor; [reflexivity |].
      rewrite Forall_map. apply Forall_forall. intros t _. reflexivity.
Qed.

Lemma csv_rows_determine_tracks_witness :
  match fst (_parse_track (mkfile sample_track 0) (lit "A") 0 0) with
  | Some t => t
  | None => new_Track [] 0 0 0 0 0 0 []
  end =
  new_Track (lit "A") 0 0 1 (-1) 65536 8
    [(100, 100); (101, 101); (103, 99); (5, 7)].
Proof.
  apply (proj1 csv_rows_determine_tracks). vm_compute. reflexivity.
Defined.

(** ** The exceptions of the directory *)

Lemma unpack_I_error (bs : list byte) (f : file) (e : exn) :
  Struct.unpack_I bs f = Err e -> e = struct_error 4.
Proof.
  unfold Struct.unpack_I, Struct.unpack, ret, raise.
  destruct (Nat.eqb _ _); intros H; inversion H. reflexivity.
Qed.

Lemma read_entries_error (fuel n : nat) :
  forall (tid : Z) (acc : list entry) (f : file) (e : exn),
    read_entries fuel n tid acc f = Some (Err e) -> e = struct_error 4.
Proof.
  induction n as [| n IH]; intros tid acc f e H; [discriminate H |].
  cbn [read_entries] in H. unfold bindF at 1, liftF in H.
  destruct (read 4 f) as [[ob f1] | e1] eqn:R; [| discriminate R].
  unfold bindF at 1 in H.
  destruct (Struct.unpack_I ob f1) as [[offset f2] | e2] eqn:U.
  - unfold bindF at 1 in H.
    destruct (read_name fuel [] f2) as [[[nb f3] | e3] |] eqn:N.
    + apply IH in H. exact H.
    + exfalso. exact (read_name_no_exception fuel [] f2 e3 N).
    + discriminate H.
  - inversion H. subst. apply unpack_I_error in U. exact U.
Qed.

Lemma read_levels_error (fuel n : nat) :
  forall (acc : list (list entry)) (f : file) (e : exn),
    read_levels fuel n acc f = Some (Err e) -> e = struct_error 4.
Proof.
  induction n as [| n IH]; intros acc f e H; [discriminate H |].
  cbn [read_levels] in H. unfold bindF at 1, liftF in H.
  destruct (read 4 f) as [[cb f1] | e1] eqn:R; [| discriminate R].
  unfold bindF at 1 in H.
  destruct (Struct.unpack_I cb f1) as [[track_count f2] | e2] eqn:U.
  - unfold bindF at 1 in H.
    destruct (read_entries fuel (Z.to_nat track_count) 0 [] f2)
      as [[[lt f3] | e3] |] eqn:E.
    + apply IH in H. exact H.
    + inversion H. subst. apply read_entries_error in E. exact E.
    + discriminate H.
  - inversion H. subst. apply unpack_I_error in U. exact U.
Qed.

(** The only exception [parse] lets out of an opened file is the
    [struct.error] of a four-byte read, a count or an offset cut short;
    what goes wrong inside a track never leaves [_parse_track].  So a
    file is parsed, or raises that error, or keeps the name loop
    running. *)
Theorem parse_raises_only_on_count_or_offset (fuel : nat) (f : file) :
  (exists (ts : list Track) (out : list log_line),
      parse_file fuel f = Some (Ok (ts, out))) \/
  parse_file fuel f = Some (Err (struct_error 4)) \/
  parse_file fuel f = None.
Proof.
  unfold parse_file.
  destruct (read_levels fuel 3 [] f) as [[[levels f'] | e] |] eqn:L.
  - left. do 2 eexists. rewrite decode_levels_walk. reflexivity.
  - right. left. apply read_levels_error in L. rewrite L. reflexivity.
  - right. right. reflexivity.
Qed.

(** ** What a returned track has read *)

Lemma byte_of_Z_val (z : Z) (b : byte) :
  z mod 256 = byte_val b -> byte_of_Z z = b.
Proof.
  intros H. apply byte_val_inj. rewrite byte_val_of_Z. exact H.
Qed.

Lemma signed_8_byte (b : byte) :
  int8 (Struct.signed 8 (byte_val b)) /\
  pack_b (Struct.signed 8 (byte_val b)) = [b].
Proof.
  pose proof (byte_val_range b) as R.
  unfold int8, pack_b, Struct.signed.
  change (2 ^ (8 - 1)) with 128. change (2 ^ 8) with 256.
  destruct (byte_val b <? 128) eqn:E;
    [apply Z.ltb_lt in E | apply Z.ltb_ge in E];
    (split; [lia | f_equal; apply byte_of_Z_val;
                   Z.div_mod_to_equations; lia]).
Qed.

Lemma pack_i_unpack (bs : list byte) :
  length bs = 4%nat ->
  int32 (Struct.signed 32 (Struct.be_uint bs)) /\
  pack_i (Struct.signed 32 (Struct.be_uint bs)) = bs.
Proof.
  intros L. split; [apply signed_32_range, be_uint_4_range; exact L |].
  destruct bs as [| a [| b [| c [| d [| e bs]]]]]; try discriminate L.
  pose proof (byte_val_range a). pose proof (byte_val_range b).
  pose proof (byte_val_range c). pose proof (byte_val_range d).
  unfold pack_i, Struct.signed, Struct.be_uint. simpl fold_left.
  change (2 ^ (32 - 1)) with 2147483648. change (2 ^ 32) with 4294967296.
  destruct (_ <? 2147483648) eqn:E;
    [apply Z.ltb_lt in E | apply Z.ltb_ge in E];
    repeat f_equal; apply byte_of_Z_val; Z.div_mod_to_equations; lia.
Qed.

Lemma pack_H_unpack (bs : list byte) :
  length bs = 2%nat ->
  0 <= Struct.be_uint bs < 65536 /\ pack_H (Struct.be_uint bs) = bs.
Proof.
  intros L. split; [apply be_uint_le_2_range; lia |].
  destruct bs as [| a [| b [| c bs]]]; try discriminate L.
  pose proof (byte_val_range a). pose proof (byte_val_range b).
  unfold pack_H, Struct.be_uint. simpl fold_left.
  repeat f_equal; apply byte_of_Z_val; Z.div_mod_to_equations; lia.
Qed.

Lemma skipn_split (k n : nat) (l : list byte) :
  skipn k l = firstn n (skipn k l) ++ skipn (k + n) l.
Proof.
  rewrite (Nat.add_comm k n), <- skipn_skipn, firstn_skipn. reflexivity.
Qed.

Lemma firstn_1_length (l : list byte) :
  length (firstn 1 l) = 1%nat -> exists b, firstn 1 l = [b].
Proof.
  destruct l as [| b l]; [discriminate |]. intros _. exists b. reflexivity.
Qed.

Lemma split_escape (u : list byte) (b : byte) :
  firstn 1 u = [b] ->
  u = [b] ++ firstn 4 (skipn 1 u) ++ firstn 4 (skipn 5 u) ++ skipn 9 u.
Proof.
  intros Eb. rewrite <- Eb.
  assert (E9 : skipn 4 (skipn 5 u) = skipn 9 u)
    by (rewrite skipn_skipn; reflexivity).
  assert (E5 : skipn 4 (skipn 1 u) = skipn 5 u)
    by (rewrite skipn_skipn; reflexivity).
  rewrite <- E9, (firstn_skipn 4 (skipn 5 u)).
  rewrite <- E5, (firstn_skipn 4 (skipn 1 u)), (firstn_skipn 1 u).
  reflexivity.
Qed.

Lemma split_relative (u : list byte) (b c : byte) :
  firstn 1 u = [b] -> firstn 1 (skipn 1 u) = [c] ->
  u = [b] ++ [c] ++ skipn 2 u.
Proof.
  intros Eb Ec. rewrite <- Eb, <- Ec.
  assert (E2 : skipn 1 (skipn 1 u) = skipn 2 u)
    by (rewrite skipn_skipn; reflexivity).
  rewrite <- E2, (firstn_skipn 1 (skipn 1 u)), (firstn_skipn 1 u).
  reflexivity.
Qed.

(** A point loop that ends has read the encoding of well-formed steps,
    no more and no less, and appended their cursor values. *)
Lemma points_loop_inv (n : nat) :
  forall (cur : Z * Z) (pts pts' : list (Z * Z)) (f f' : file),
    points_loop n cur pts f = Ok (pts', f') ->
    exists (steps : list step) (rest : list byte),
      Forall step_ok steps /\ length steps = n /\
      unread f = encode_steps steps ++ rest /\
      pts' = pts ++ spec_points cur steps /\
      f' = advance (length (encode_steps steps)) f.
Proof.
  induction n as [| n IH]; intros cur pts pts' f f' H.
  - simpl in H. unfold ret in H. inversion H. subst.
    exists [], (unread f'). simpl. rewrite app_nil_r, advance_0. auto.
  - cbn [points_loop] in H.
    apply (read_unpack_inv (A := list (Z * Z)) 1) in H.
    destruct H as [L0 H].
    destruct (firstn_1_length _ L0) as [b Eb]. rewrite Eb in H.
    change (Struct.be_uint [b]) with (0 * 256 + byte_val b) in H.
    rewrite Z.mul_0_l, Z.add_0_l in H.
    destruct (signed_8_byte b) as [Rb Pb].
    destruct (Struct.signed 8 (byte_val b) =? -1) eqn:E.
    + apply Z.eqb_eq in E. rewrite E in Pb.
      apply (read_unpack_inv (A := list (Z * Z)) 4) in H. destruct H as [L1 H].
      apply (read_unpack_inv (A := list (Z * Z)) 4) in H. destruct H as [L2 H].
      rewrite (advance_advance 1 4 f) in H, L2.
      rewrite (advance_advance (1 + 4) 4 f) in H.
      change (1 + 4)%nat with 5%nat in H, L2.
      change (5 + 4)%nat with 9%nat in H.
      repeat rewrite unread_advance_skipn in H.
      rewrite unread_advance_skipn in L1. rewrite unread_advance_skipn in L2.
      destruct (pack_i_unpack _ L1) as [Rx Px].
      destruct (pack_i_unpack _ L2) as [Ry Py].
      apply IH in H. destruct H as (steps & rest & Hok & Hlen & Hu & -> & ->).
      rewrite unread_advance_skipn in Hu.
      exists (AbsoluteReset
                (Struct.signed 32 (Struct.be_uint (firstn 4 (skipn 1 (unread f)))))
                (Struct.signed 32 (Struct.be_uint (firstn 4 (skipn 5 (unread f)))))
              :: steps), rest.
      split; [constructor; [split; assumption | exact Hok] |].
      split; [simpl; congruence |].
      split; [| split].
      * change (encode_steps (?s :: steps))
          with (encode_step s ++ encode_steps steps).
        cbn [encode_step]. rewrite Pb, Px, Py, <- !app_assoc, <- Hu.
        apply split_escape. exact Eb.
      * cbn [spec_points spec_apply fst snd]. rewrite <- app_assoc.
        reflexivity.
      * rewrite advance_advance.
        change (encode_steps (?s :: steps))
          with (encode_step s ++ encode_steps steps).
        rewrite length_app, length_encode_step. reflexivity.
    + apply Z.eqb_neq in E.
      apply (read_unpack_inv (A := list (Z * Z)) 1) in H. destruct H as [L1 H].
      rewrite (advance_advance 1 1 f) in H.
      change (1 + 1)%nat with 2%nat in H.
      repeat rewrite unread_advance_skipn in H.
      rewrite unread_advance_skipn in L1.
      destruct (firstn_1_length _ L1) as [c Ec]. rewrite Ec in H.
      change (Struct.be_uint [c]) with (0 * 256 + byte_val c) in H.
      rewrite Z.mul_0_l, Z.add_0_l in H.
      destruct (signed_8_byte c) as [Rc Pc].
      apply IH in H. destruct H as (steps & rest & Hok & Hlen & Hu & -> & ->).
      rewrite unread_advance_skipn in Hu.
      exists (Relative (Struct.signed 8 (byte_val b))
                (Struct.signed 8 (byte_val c)) :: steps), rest.
      split; [constructor; [exact (conj Rb (conj E Rc)) | exact Hok] |].
      split; [simpl; congruence |].
      split; [| split].
      * change (encode_steps (?s :: steps))
          with (encode_step s ++ encode_steps steps).
        cbn [encode_step]. rewrite Pb, Pc, <- !app_assoc, <- Hu.
        apply split_relative; assumption.
      * cbn [spec_points spec_apply fst snd]. rewrite <- app_assoc.
        reflexivity.
      * rewrite advance_advance.
        change (encode_steps (?s :: steps))
          with (encode_step s ++ encode_steps steps).
        rewrite length_app, length_encode_step. reflexivity.
Qed.

Lemma header_split (u : list byte) :
  u = firstn 1 u ++ firstn 4 (skipn 1 u) ++ firstn 4 (skipn 5 u) ++
      firstn 4 (skipn 9 u) ++ firstn 4 (skipn 13 u) ++
      firstn 2 (skipn 17 u) ++ firstn 4 (skipn 19 u) ++
      firstn 4 (skipn 23 u) ++ skipn 27 u.
Proof.
  assert (E27 : skipn 4 (skipn 23 u) = skipn 27 u)
    by (rewrite skipn_skipn; reflexivity).
  assert (E23 : skipn 4 (skipn 19 u) = skipn 23 u)
    by (rewrite skipn_skipn; reflexivity).
  assert (E19 : skipn 2 (skipn 17 u) = skipn 19 u)
    by (rewrite skipn_skipn; reflexivity).
  assert (E17 : skipn 4 (skipn 13 u) = skipn 17 u)
    by (rewrite skipn_skipn; reflexivity).
  assert (E13 : skipn 4 (skipn 9 u) = skipn 13 u)
    by (rewrite skipn_skipn; reflexivity).
  assert (E9 : skipn 4 (skipn 5 u) = skipn 9 u)
    by (rewrite skipn_skipn; reflexivity).
  assert (E5 : skipn 4 (skipn 1 u) = skipn 5 u)
    by (rewrite skipn_skipn; reflexivity).
  rewrite <- E27, (firstn_skipn 4 (skipn 23 u)).
  rewrite <- E23, (firstn_skipn 4 (skipn 19 u)).
  rewrite <- E19, (firstn_skipn 2 (skipn 17 u)).
  rewrite <- E17, (firstn_skipn 4 (skipn 13 u)).
  rewrite <- E13, (firstn_skipn 4 (skipn 9 u)).
  rewrite <- E9, (firstn_skipn 4 (skipn 5 u)).
  rewrite <- E5, (firstn_skipn 4 (skipn 1 u)).
  rewrite (firstn_skipn 1 u). reflexivity.
Qed.

(** A track is returned only if the bytes at the cursor are the whole
    encoding of a track: the marker, four anchors, the count, the first
    point and one well-formed step for each further point, two bytes for
    a relative step and nine for an escaped one; the track returned is
    the one those bytes encode.  In particular the buffer holds at least
    the 27 bytes of the header and two bytes for each point after the
    first. *)
Theorem track_needs_whole_encoding (f : file) (nm : str) (lv tid : Z)
    (t : Track) (out : list log_line) :
  _parse_track f nm lv tid = (Some t, out) ->
  (exists (sx sy fx fy pc x0 y0 : Z) (steps : list step) (rest : list byte),
      (int32 sx /\ int32 sy /\ int32 fx /\ int32 fy /\ int32 x0 /\ int32 y0) /\
      0 <= pc < 65536 /\
      Forall step_ok steps /\ length steps = Z.to_nat (pc - 1) /\
      unread f = encode_track sx sy fx fy pc x0 y0 steps ++ rest /\
      t = new_Track nm lv tid sx sy fx fy
            ((x0, y0) :: spec_points (x0, y0) steps)) /\
  (25 + 2 * length (points t) <= length (unread f))%nat.
Proof.
  intros H. pose proof (_parse_track_Some_header _ _ _ _ _ _ H) as G.
  destruct G as (L & M & pts & f' & -> & P). split.
  - assert (L4 : forall k, (k + 4 <= 27)%nat ->
                 length (firstn 4 (skipn k (unread f))) = 4%nat)
      by (intros k Hk; rewrite length_firstn, length_skipn; lia).
    assert (L2 : length (firstn 2 (skipn 17 (unread f))) = 2%nat)
      by (rewrite length_firstn, length_skipn; lia).
    destruct (pack_i_unpack _ (L4 1%nat ltac:(lia))) as [R1 P1].
    destruct (pack_i_unpack _ (L4 5%nat ltac:(lia))) as [R5 P5].
    destruct (pack_i_unpack _ (L4 9%nat ltac:(lia))) as [R9 P9].
    destruct (pack_i_unpack _ (L4 13%nat ltac:(lia))) as [R13 P13].
    destruct (pack_i_unpack _ (L4 19%nat ltac:(lia))) as [R19 P19].
    destruct (pack_i_unpack _ (L4 23%nat ltac:(lia))) as [R23 P23].
    destruct (pack_H_unpack _ L2) as [RH PH].
    apply points_loop_inv in P.
    destruct P as (steps & rest & Hok & Hlen & Hu & -> & _).
    rewrite unread_advance_skipn in Hu.
    exists (header_i32 1 f), (header_i32 5 f), (header_i32 9 f),
      (header_i32 13 f), (header_point_count f),
      (fst (header_first_point f)), (snd (header_first_point f)),
      steps, rest.
    split; [exact (conj R1 (conj R5 (conj R9 (conj R13 (conj R19 R23))))) |].
    split; [exact RH |]. split; [exact Hok |]. split; [exact Hlen |].
    split; [| reflexivity].
    unfold encode_track, header_i32, header_point_count, header_first_point.
    cbn [fst snd]. rewrite P1, P5, P9, P13, P19, P23, PH.
    rewrite <- !app_assoc, <- Hu, <- M. apply header_split.
  - pose proof (points_loop_length _ _ _ _ _ _ P) as N.
    apply points_loop_consumes in P.
    rewrite unread_advance_skipn, length_skipn in P.
    unfold new_Track, __post_init__. cbn [points]. rewrite length_map, N.
    simpl length. lia.
Qed.

Lemma track_needs_whole_encoding_witness :
  (exists (sx sy fx fy pc x0 y0 : Z) (steps : list step) (rest : list byte),
      (int32 sx /\ int32 sy /\ int32 fx /\ int32 fy /\ int32 x0 /\ int32 y0) /\
      0 <= pc < 65536 /\
      Forall step_ok steps /\ length steps = Z.to_nat (pc - 1) /\
      unread (mkfile sample_track 0) =
        encode_track sx sy fx fy pc x0 y0 steps ++ rest /\
      new_Track (lit "A") 0 0 1 (-1) 65536 8
        [(100, 100); (101, 101); (103, 99); (5, 7)] =
      new_Track (lit "A") 0 0 sx sy fx fy
        ((x0, y0) :: spec_points (x0, y0) steps)) /\
  (25 + 2 * 4 <= length sample_track)%nat.
Proof.
  apply (track_needs_whole_encoding (mkfile sample_track 0) (lit "A") 0 0
           (new_Track (lit "A") 0 0 1 (-1) 65536 8
              [(100, 100); (101, 101); (103, 99); (5, 7)]) []).
  vm_compute. reflexivity.
Defined.

(** ** Batch aggregator: the order of the output *)

Lemma parse_file_read (fuel : nat) (f f' : file) (levels : list (list entry)) :
  read_levels fuel 3 [] f = Some (Ok (levels, f')) ->
  parse_file fuel f =
  Some (Ok (flat_map (entry_tracks f) (walk 0 levels),
            flat_map (entry_output f) (walk 0 levels))).
Proof.
  intros H. unfold parse_file. rewrite H, decode_levels_walk.
  simpl fst. simpl snd. simpl app.
  destruct (read_levels_Ok fuel 3 [] levels f f' H) as (C & _).
  do 3 f_equal; apply flat_map_ext; intros le;
    unfold entry_tracks, entry_output;
    rewrite (decode_entry_contents f f' le C); reflexivity.
Qed.

Lemma short_buffer_raises (buf : list byte) (fuel : nat) :
  (length buf < 4)%nat ->
  parse_file fuel (mkfile buf 0) = Some (Err (struct_error 4)).
Proof.
  intros H. unfold parse_file. cbn [read_levels].
  unfold bindF at 1, liftF, read. cbn [contents pos skipn].
  unfold bindF at 1, Struct.unpack_I, Struct.unpack.
  destruct (Nat.eqb (length (firstn 4 buf)) 4) eqn:E.
  - apply Nat.eqb_eq in E. rewrite length_firstn in E. lia.
  - reflexivity.
Qed.

Lemma well_formed_source_read (fuel : nat) (buf : list byte)
    (ls : list (list (Z * list byte))) :
  well_formed_source fuel buf ls ->
  read_levels fuel 3 [] (mkfile buf 0) =
  Some (Ok (map (decoded_entries 0) ls,
            advance (length (flat_map encode_level ls)) (mkfile buf 0))).
Proof.
  intros (Hlen & Hok & rest & ->). rewrite <- Hlen.
  apply (read_levels_encoded fuel ls Hok [] _ rest). reflexivity.
Qed.

Lemma source_returns_parse (fs : str -> option (list byte)) (fuel : nat)
    (p : str) :
  source_returns fs fuel p -> parse fs fuel p <> None.
Proof.
  unfold parse. intros [E | (buf & E & [S | (ls & W)])]; rewrite E.
  - discriminate.
  - rewrite (short_buffer_raises buf fuel S). discriminate.
  - rewrite (parse_file_read fuel _ _ _ (well_formed_source_read fuel buf ls W)).
    discriminate.
Qed.

Lemma source_tracks_read (fs : str -> option (list byte)) (stem : str -> str)
    (fuel : nat) (p : str) (buf : list byte) (levels : list (list entry))
    (f' : file) :
  fs p = Some buf ->
  read_levels fuel 3 [] (mkfile buf 0) = Some (Ok (levels, f')) ->
  source_tracks fs stem fuel p =
  map (set_source_file (stem p))
    (flat_map (entry_tracks (mkfile buf 0)) (walk 0 levels)).
Proof.
  intros E R. unfold source_tracks, parse. rewrite E.
  rewrite (parse_file_read fuel _ _ _ R). reflexivity.
Qed.

(** C9. The tracks of the batch are those of the sources, in the order
    of the paths; the tracks of a source are those of its directory
    entries that decode, in directory order (level 0, 1, 2, and entry
    order within a level), each with the level, index and name of its
    entry and the stem of the path of its source.  The batch returns on
    every list of files that do not open, are too short for a count, or
    start with a well-formed directory whose names are shorter than the
    fuel; the files that raise are listed apart, in order. *)
Theorem batch_preserves_order (fs : str -> option (list byte))
    (stem : str -> str) (fuel : nat) (paths : list str) :
  ((forall p, In p paths -> source_returns fs fuel p) ->
   parse_multiple_files fs stem fuel paths =
   Some (flat_map (source_tracks fs stem fuel) paths,
         filter (source_fails fs fuel) paths)) /\
  (forall (all : list Track) (failed : list str),
      parse_multiple_files fs stem fuel paths = Some (all, failed) ->
      all = flat_map (source_tracks fs stem fuel) paths /\
      failed = filter (source_fails fs fuel) paths) /\
  (forall (p : str) (buf : list byte) (levels : list (list entry))
          (f' : file),
      fs p = Some buf ->
      read_levels fuel 3 [] (mkfile buf 0) = Some (Ok (levels, f')) ->
      source_tracks fs stem fuel p =
      map (set_source_file (stem p))
        (flat_map (entry_tracks (mkfile buf 0)) (walk 0 levels))) /\
  (forall (p : str) (buf : list byte) (ls : list (list (Z * list byte))),
      fs p = Some buf -> well_formed_source fuel buf ls ->
      source_tracks fs stem fuel p =
      map (set_source_file (stem p))
        (flat_map (entry_tracks (mkfile buf 0))
           (walk 0 (map (decoded_entries 0) ls)))) /\
  (forall (f : file) (lv offset tid : Z) (nm : str) (t : Track),
      In t (entry_tracks f (lv, (offset, nm, tid))) ->
      _parse_track (seek offset f) nm lv tid = (Some t, []) /\
      level t = lv /\ track_id t = tid /\ name t = nm) /\
  (forall p : str,
      Forall (fun t => source_file t = stem p /\ 0 <= level t <= 2)
        (source_tracks fs stem fuel p) /\
      StronglySorted key_lt (map track_key (source_tracks fs stem fuel p))).
Proof.
  split; [| split; [| split; [| split; [| split]]]].
  - intros H.
    assert (E : files_loop fs stem fuel paths [] [] <> None).
    { apply files_loop_ends. intros p Hp.
      apply source_returns_parse. apply H. exact Hp. }
    unfold parse_multiple_files.
    destruct (files_loop fs stem fuel paths [] []) as [r |] eqn:R;
      [| congruence].
    apply files_loop_Some in R. rewrite R. reflexivity.
  - intros all failed H. unfold parse_multiple_files in H.
    apply files_loop_Some in H. inversion H. auto.
  - intros p buf levels f' E R.
    exact (source_tracks_read fs stem fuel p buf levels f' E R).
  - intros p buf ls E W.
    exact (source_tracks_read fs stem fuel p buf _ _ E
             (well_formed_source_read fuel buf ls W)).
  - intros f lv offset tid nm t Hin.
    pose proof (entry_tracks_key f _ t Hin) as (K & N & _).
    unfold track_key, entry_key in K. cbn [fst snd] in K, N.
    injection K as Kl Kt.
    unfold entry_tracks, decode_entry in Hin.
    destruct (_parse_track (seek offset f) nm lv tid) as [[t' |] o] eqn:P;
      cbn [fst] in Hin; [| destruct Hin].
    destruct Hin as [-> | []].
    destruct (_parse_track_Some _ _ _ _ _ _ P) as [-> _].
    repeat split; auto.
  - intros p. apply source_tracks_order.
Qed.

Lemma batch_preserves_order_witness :
  option_map (fun r => (map track_summary (fst r), snd r))
    (parse_multiple_files ordered_fs sample_stem 2
       [lit "x.mrg"; lit "b.mrg"; lit "a.mrg"; lit "d.mrg"]) =
  Some ([(lit "x", lit "A", 0, 0); (lit "x", lit "B", 0, 1);
         (lit "x", lit "C", 1, 0); (lit "a", lit "A", 0, 0)],
        [lit "b.mrg"; lit "d.mrg"]).
Proof.
  rewrite (proj1 (batch_preserves_order ordered_fs sample_stem 2
                    [lit "x.mrg"; lit "b.mrg"; lit "a.mrg"; lit "d.mrg"])).
  - vm_compute. reflexivity.
  - intros p [<- | [<- | [<- | [<- | []]]]].
    + right. exists ordered_source. split; [vm_compute; reflexivity |].
      right. exists [[(57, [x41]); (30, [x42])]; [(30, [x43])]; []].
      split; [reflexivity |]. split.
      * unfold entry_ok. repeat constructor; simpl; try lia;
          intros [H | []]; discriminate H.
      * exists (first_track ++ second_track). vm_compute. reflexivity.
    + right. exists [x00; x00]. split; [vm_compute; reflexivity |].
      left. simpl. lia.
    + right. exists sample_source. split; [vm_compute; reflexivity |].
      right. exists [[(30, [x41]); (0, [x42])]; []; [(0, [x42])]].
      split; [reflexivity |]. split.
      * unfold entry_ok. repeat constructor; simpl; try lia;
          intros [H | []]; discriminate H.
      * exists sample_track. vm_compute. reflexivity.
    + left. vm_compute. reflexivity.
Defined.
